(** * mm-epub: the book list component (script of the Vue single-file component)

    A shallow embedding of the [<script setup>] block of the most complete
    variant of the application component: catalog loading, the filter
    engine, the favorites store, the image cache and the synchronisation of
    the two modals with the browser history.

    Reactive refs ([books], [favorites], [showBookDetail], ...) become fields
    of explicit state records, one record per group of refs that the
    functions of a component read and write.  Code that can throw, or that
    talks to the browser (localStorage, fetch, history), runs in a small
    state-and-exception monad, so that [try]/[catch] of the source is a
    combinator of the model. *)

From Stdlib Require Import ZArith Ascii.
From stdpp Require Import base option list gmap strings pretty sorting.

Local Open Scope Z_scope.
Local Open Scope nat_scope.

(** ** Built-ins of the JavaScript runtime

    The component calls string functions of the runtime whose definitions are
    not part of the repository.  They are collected in one interface; every
    theorem below holds for each implementation of it.  The only law used is
    that trimming the empty string gives the empty string. *)

Class JSRuntime := {
  toLowerCase : string -> string;          (* String.prototype.toLowerCase *)
  trim : string -> string;                 (* String.prototype.trim *)
  trim_empty : trim "" = "";
  encodeURIComponent : string -> string;
  JSON_stringify : list string -> string;  (* on an array of strings *)
  baseUrl : string                         (* import.meta.env.VITE_API_BASE_URL *)
}.

(** Truthiness of a string: every string but the empty one. *)
Definition truthy (s : string) : bool :=
  match s with
  | EmptyString => false
  | String _ _ => true
  end.

(** [s.includes(q)]: [q] occurs in [s] as a contiguous run of characters. *)
Fixpoint startsWith (s q : string) : bool :=
  match q, s with
  | EmptyString, _ => true
  | String _ _, EmptyString => false
  | String c q', String d s' => if decide (c = d) then startsWith s' q' else false
  end.

Fixpoint includes (s q : string) : bool :=
  startsWith s q ||
  match s with
  | EmptyString => false
  | String _ s' => includes s' q
  end.

(** [arr.indexOf(k)] on an array of strings; [None] stands for [-1]. *)
Fixpoint indexOf (arr : list string) (k : string) : option nat :=
  match arr with
  | [] => None
  | x :: rest => if decide (x = k) then Some 0 else S <$> indexOf rest k
  end.

(** [arr.includes(k)]. *)
Definition arr_includes (arr : list string) (k : string) : bool :=
  bool_decide (k ∈ arr).

(** [arr.find(p)]. *)
Fixpoint find {A : Type} (p : A -> bool) (arr : list A) : option A :=
  match arr with
  | [] => None
  | x :: rest => if p x then Some x else find p rest
  end.

(** ** Books

    An entry of the [book] array of [summary.json].  Only the fields that the
    modelled functions read are kept; [category] and [size_in_bytes] are
    optional in the data. *)

Record Book := {
  name : string;
  author : string;
  category : option string;
  isCoverImg : bool;
  size_in_bytes : option Z
}.

(** ** Completions, and the state-and-exception monad *)

Inductive Completion (A : Type) : Type :=
  | Normal (a : A)
  | Thrown (e : string).
Arguments Normal {A} a.
Arguments Thrown {A} e.

Definition Js (S A : Type) : Type := S -> Completion A * S.

Definition ret {S A} (a : A) : Js S A := fun s => (Normal a, s).

Definition throw {S A} (e : string) : Js S A := fun s => (Thrown e, s).

Definition bind {S A B} (m : Js S A) (k : A -> Js S B) : Js S B :=
  fun s =>
    match m s with
    | (Normal a, s') => k a s'
    | (Thrown e, s') => (Thrown e, s')
    end.

(** [try { body } catch (e) { handler e }]: the state changes made by the
    body before it threw are kept. *)
Definition try_catch {S A} (body : Js S A) (handler : string -> Js S A) : Js S A :=
  fun s =>
    match body s with
    | (Normal a, s') => (Normal a, s')
    | (Thrown e, s') => handler e s'
    end.

Definition gets {S A} (f : S -> A) : Js S A := fun s => (Normal (f s), s).

Definition modify {S} (f : S -> S) : Js S unit := fun s => (Normal tt, f s).

Definition exec {S A} (m : Js S A) (s : S) : S := snd (m s).

Definition result {S A} (m : Js S A) (s : S) : Completion A := fst (m s).

Notation "'let*' x ':=' m 'in' k" := (bind m (fun x => k))
  (at level 10, x name, m at level 100, k at level 200,
   format "'[v' 'let*'  x  ':='  m  'in' '/' k ']'").
Notation "m ;; k" := (bind m (fun _ => k))
  (at level 100, k at level 200, right associativity).

(** ** localStorage

    A key-value store of strings with a quota: [setItem] throws
    [QuotaExceededError] when the store would outgrow it. *)

Record Storage := {
  items : gmap string string;
  quota : nat
}.

#[global] Instance Storage_eq_dec : EqDecision Storage.
Proof. solve_decision. Defined.

Definition used (m : gmap string string) : nat :=
  map_fold (fun k v n => String.length k + String.length v + n) 0 m.

Definition getItem (st : Storage) (k : string) : option string := items st !! k.

Definition setItem (st : Storage) (k v : string) : option Storage :=
  let m := <[k := v]> (items st) in
  if decide (used m <= quota st)
  then Some {| items := m; quota := quota st |}
  else None.

(** [localStorage.setItem(k, v)] as a statement over a state that holds the
    store behind a getter and a setter. *)
Definition localStorage_setItem {S} (get : S -> Storage) (set : Storage -> S -> S)
  (k v : string) : Js S unit :=
  fun s =>
    match setItem (get s) k v with
    | Some st => (Normal tt, set st s)
    | None => (Thrown "QuotaExceededError", s)
    end.

(** ** Catalog loader: the [onMounted] hook *)

Module Catalog.

(** What [axios.get] settles to: the promise rejects, or it resolves to a
    response whose [data.book] is an array of books or is missing. *)
Inductive AxiosOutcome :=
  | Rejected
  | Resolved (data_book : option (list Book)).

Record State := {
  books : list Book;
  loading : bool;
  error : option string;
  requests : list string       (* URLs requested so far *)
}.

(** The refs as the component declares them. *)
Definition initial : State :=
  {| books := []; loading := true; error := None; requests := [] |}.

Definition set_books (v : list Book) (s : State) : State :=
  {| books := v; loading := loading s; error := error s; requests := requests s |}.
Definition set_loading (v : bool) (s : State) : State :=
  {| books := books s; loading := v; error := error s; requests := requests s |}.
Definition set_error (v : option string) (s : State) : State :=
  {| books := books s; loading := loading s; error := v; requests := requests s |}.
Definition log_request (url : string) (s : State) : State :=
  {| books := books s; loading := loading s; error := error s;
     requests := requests s ++ [url] |}.

(** [await axios.get(url)] *)
Definition axios_get (server : AxiosOutcome) (url : string)
  : Js State (option (list Book)) :=
  modify (log_request url) ;;
  match server with
  | Rejected => throw "AxiosError"
  | Resolved data_book => ret data_book
  end.

(** [!book.size_in_bytes || book.size_in_bytes > 1407]: a missing field and
    the number 0 are both falsy. *)
Definition keep (book : Book) : bool :=
  match size_in_bytes book with
  | None => true
  | Some n => (n =? 0)%Z || (1407 <? n)%Z
  end.

Section WithRuntime.
Context `{JSRuntime}.

(** The catalog part of the hook.  What follows it in the source
    ([loadFavorites] and the registration of the popstate and scroll
    listeners) touches none of the refs of this state. *)
Definition onMounted (server : AxiosOutcome) : Js State unit :=
  try_catch
    (let* data_book := axios_get server (baseUrl +:+ "/summary.json") in
     match data_book with
     | Some arr => modify (set_books (List.filter keep arr))
     | None => throw "TypeError"      (* res.data.book.filter on undefined *)
     end)
    (fun _ => modify (set_error (Some "Failed to load books."))) ;;
  modify (set_loading false).

End WithRuntime.

(** The rule of the comment above the filter in the source, "Remove books
    with size_in_bytes <= 1407": keep a book iff the field is absent or
    greater than 1407. *)
Definition keep_documented (book : Book) : bool :=
  match size_in_bytes book with
  | None => true
  | Some n => (1407 <? n)%Z
  end.

End Catalog.

(** ** Filter engine: the computed [filteredBooks] and [favoriteCount] *)

Module Filter.

(** The four refs that the filter controls write. *)
Record FilterState := {
  searchQuery : string;
  selectedAuthor : string;
  selectedCategory : string;
  showFavoritesOnly : bool
}.

Definition getFavoriteKey (book : Book) : string :=
  author book +:+ "|" +:+ name book.

Definition isFavorite (favorites : list string) (book : Book) : bool :=
  arr_includes favorites (getFavoriteKey book).

Section WithRuntime.
Context `{JSRuntime}.

Definition filteredBooks (books : list Book) (favorites : list string)
  (st : FilterState) : list Book :=
  let filtered := books in
  let filtered :=
    if truthy (trim (searchQuery st)) then
      let query := trim (toLowerCase (searchQuery st)) in
      List.filter (fun book => includes (toLowerCase (name book)) query) filtered
    else filtered in
  let filtered :=
    if truthy (selectedAuthor st) then
      List.filter (fun book => bool_decide (author book = selectedAuthor st)) filtered
    else filtered in
  let filtered :=
    if truthy (selectedCategory st) then
      List.filter
        (fun book => bool_decide (category book = Some (selectedCategory st)))
        filtered
    else filtered in
  let filtered :=
    if showFavoritesOnly st then
      List.filter (fun book => isFavorite favorites book) filtered
    else filtered in
  filtered.

End WithRuntime.

Definition favoriteCount (books : list Book) (favorites : list string) : nat :=
  length (List.filter (fun book => isFavorite favorites book) books).

(** The conjunction that [filteredBooks] applies, as one predicate on a book:
    a control that is unset contributes [true]. *)
Section Predicates.
Context `{JSRuntime}.

Definition passes (favorites : list string) (st : FilterState) (book : Book) : bool :=
  (if truthy (trim (searchQuery st))
   then includes (toLowerCase (name book)) (trim (toLowerCase (searchQuery st)))
   else true) &&
  (if truthy (selectedAuthor st)
   then bool_decide (author book = selectedAuthor st) else true) &&
  (if truthy (selectedCategory st)
   then bool_decide (category book = Some (selectedCategory st)) else true) &&
  (if showFavoritesOnly st then isFavorite favorites book else true).

(** The constraints in the words of the specification: the search text is
    compared as it was typed, lowercased. *)
Definition satisfies_as_specified (favorites : list string) (st : FilterState)
  (book : Book) : Prop :=
  includes (toLowerCase (name book)) (toLowerCase (searchQuery st)) = true /\
  (selectedAuthor st <> "" -> author book = selectedAuthor st) /\
  (selectedCategory st <> "" -> category book = Some (selectedCategory st)) /\
  (showFavoritesOnly st = true -> getFavoriteKey book ∈ favorites).

(** The constraints as the code applies them: the search text is trimmed,
    and a search text that is blank after trimming is no constraint. *)
Definition satisfies (favorites : list string) (st : FilterState)
  (book : Book) : Prop :=
  (trim (searchQuery st) <> "" ->
   includes (toLowerCase (name book)) (trim (toLowerCase (searchQuery st))) = true) /\
  (selectedAuthor st <> "" -> author book = selectedAuthor st) /\
  (selectedCategory st <> "" -> category book = Some (selectedCategory st)) /\
  (showFavoritesOnly st = true -> getFavoriteKey book ∈ favorites).

End Predicates.

(** One more constraint is switched on, the other controls stay as they are. *)
Inductive activates : FilterState -> FilterState -> Prop :=
  | activates_search st q :
      searchQuery st = "" ->
      activates st {| searchQuery := q; selectedAuthor := selectedAuthor st;
                      selectedCategory := selectedCategory st;
                      showFavoritesOnly := showFavoritesOnly st |}
  | activates_author st a :
      selectedAuthor st = "" ->
      activates st {| searchQuery := searchQuery st; selectedAuthor := a;
                      selectedCategory := selectedCategory st;
                      showFavoritesOnly := showFavoritesOnly st |}
  | activates_category st c :
      selectedCategory st = "" ->
      activates st {| searchQuery := searchQuery st; selectedAuthor := selectedAuthor st;
                      selectedCategory := c;
                      showFavoritesOnly := showFavoritesOnly st |}
  | activates_favorites st :
      showFavoritesOnly st = false ->
      activates st {| searchQuery := searchQuery st; selectedAuthor := selectedAuthor st;
                      selectedCategory := selectedCategory st;
                      showFavoritesOnly := true |}.

(** The number of catalog books whose composite key is a favorite, counted
    book by book. *)
Definition favorites_in_catalog (books : list Book) (favorites : list string) : nat :=
  sum_list_with
    (fun book => if decide (getFavoriteKey book ∈ favorites) then 1 else 0) books.

Definition no_filter : FilterState :=
  {| searchQuery := ""; selectedAuthor := ""; selectedCategory := "";
     showFavoritesOnly := false |}.

End Filter.

(** ** Favorites store *)

Module Favorites.

Record State := {
  favorites : list string;     (* the ref: an array of composite keys *)
  localStorage : Storage
}.

Definition set_favorites (v : list string) (s : State) : State :=
  {| favorites := v; localStorage := localStorage s |}.
Definition set_localStorage (v : Storage) (s : State) : State :=
  {| favorites := favorites s; localStorage := v |}.

Definition getFavoriteKey := Filter.getFavoriteKey.

Definition isFavorite (s : State) (book : Book) : bool :=
  arr_includes (favorites s) (getFavoriteKey book).

(** The array after [splice(index, 1)] at the index of [key], or after
    [push(key)] when [key] is not in it. *)
Definition toggled (arr : list string) (key : string) : list string :=
  match indexOf arr key with
  | Some i => delete i arr
  | None => arr ++ [key]
  end.

Section WithRuntime.
Context `{JSRuntime}.

(** The write is inside [try]; the handler only logs. *)
Definition saveFavorites : Js State unit :=
  try_catch
    (let* favs := gets favorites in
     localStorage_setItem localStorage set_localStorage
       "epub-favorites" (JSON_stringify favs))
    (fun _ => ret tt).

(** [splice(index, 1)] removes the element at [index]; [push] appends. *)
Definition toggleFavorite (book : Book) : Js State unit :=
  let key := getFavoriteKey book in
  let* index := gets (fun s => indexOf (favorites s) key) in
  match index with
  | Some i => modify (fun s => set_favorites (delete i (favorites s)) s)
  | None => modify (fun s => set_favorites (favorites s ++ [key]) s)
  end ;;
  saveFavorites.

(** Durable storage holds the serialisation of the in-memory array. *)
Definition persisted (s : State) : Prop :=
  getItem (localStorage s) "epub-favorites" = Some (JSON_stringify (favorites s)).

End WithRuntime.

End Favorites.

(** ** Image cache *)

Module ImageCache.

(** What [fetch] settles to: the promise rejects (network error), or it
    resolves to a response with its [ok] flag and its body. *)
Inductive FetchOutcome :=
  | NetworkError
  | Response (ok : bool) (body : string).

Definition succeeded (o : FetchOutcome) : bool :=
  match o with
  | Response true _ => true
  | _ => false
  end.

Record State := {
  cachedImageUrls : gmap string string;   (* the ref: cache key to blob URL *)
  localStorage : Storage;
  requests : list string;                  (* URLs fetched so far *)
  blobs : nat                              (* object URLs created so far *)
}.

Definition set_cachedImageUrls (v : gmap string string) (s : State) : State :=
  {| cachedImageUrls := v; localStorage := localStorage s;
     requests := requests s; blobs := blobs s |}.
Definition set_localStorage (v : Storage) (s : State) : State :=
  {| cachedImageUrls := cachedImageUrls s; localStorage := v;
     requests := requests s; blobs := blobs s |}.
Definition log_request (url : string) (s : State) : State :=
  {| cachedImageUrls := cachedImageUrls s; localStorage := localStorage s;
     requests := requests s ++ [url]; blobs := blobs s |}.
Definition next_blob (s : State) : State :=
  {| cachedImageUrls := cachedImageUrls s; localStorage := localStorage s;
     requests := requests s; blobs := S (blobs s) |}.

Definition getCacheKey (author filename : string) : string :=
  author +:+ "|" +:+ filename.

Definition flagKey (cacheKey : string) : string := "img-cache-" +:+ cacheKey.

Section WithRuntime.
Context `{JSRuntime}.

(** The network: [net n url] is what the [n]-th request of the session
    settles to when it asks for [url]. *)
Variable net : nat -> string -> FetchOutcome.

(** [await fetch(url)]: the request is logged; a network error throws. *)
Definition fetch (url : string) : Js State (bool * string) :=
  let* n := gets (fun s => length (requests s)) in
  modify (log_request url) ;;
  match net n url with
  | NetworkError => throw "TypeError: Failed to fetch"
  | Response ok body => ret (ok, body)
  end.

(** [URL.createObjectURL(blob)]: a fresh session-scoped handle. *)
Definition createObjectURL (blob : string) : Js State string :=
  let* n := gets blobs in
  modify next_blob ;;
  ret ("blob:" +:+ pretty n).

Definition isImageCached (author filename : string) : Js State bool :=
  let cacheKey := getCacheKey author filename in
  gets (fun s => bool_decide (getItem (localStorage s) (flagKey cacheKey) = Some "true")).

Definition markImageAsCached (author filename : string) : Js State unit :=
  let cacheKey := getCacheKey author filename in
  localStorage_setItem localStorage set_localStorage (flagKey cacheKey) "true".

Definition getCachedImageUrl (author filename : string) : Js State (option string) :=
  let cacheKey := getCacheKey author filename in
  gets (fun s => cachedImageUrls s !! cacheKey).

Definition imgUrl (author filename : string) : string :=
  baseUrl +:+ "/author/" +:+ encodeURIComponent author +:+ "/"
    +:+ encodeURIComponent filename +:+ ".jpg".

Definition getFallbackImageUrl := imgUrl.

(** The value of a [try] block that may [return] from the function:
    [Some v] when it returned [v], [None] when control falls out of it. *)
Definition cacheImage (author filename : string) : Js State (option string) :=
  let cacheKey := getCacheKey author filename in
  let* has := gets (fun s => bool_decide (is_Some (cachedImageUrls s !! cacheKey))) in
  if has then gets (fun s => cachedImageUrls s !! cacheKey)
  else
    let* flagged := isImageCached author filename in
    let* returned :=
      (if flagged then
         try_catch
           (let* response := fetch (imgUrl author filename) in
            if fst response then
              let* blobUrl := createObjectURL (snd response) in
              modify (fun s => set_cachedImageUrls (<[cacheKey := blobUrl]> (cachedImageUrls s)) s) ;;
              ret (Some (Some blobUrl))
            else ret None)
           (fun _ => ret None)
       else ret None) in
    match returned with
    | Some v => ret v
    | None =>
      let* returned :=
        try_catch
          (let* response := fetch (imgUrl author filename) in
           if fst response then
             let* blobUrl := createObjectURL (snd response) in
             modify (fun s => set_cachedImageUrls (<[cacheKey := blobUrl]> (cachedImageUrls s)) s) ;;
             markImageAsCached author filename ;;
             ret (Some (Some blobUrl))
           else ret None)
          (fun _ => ret None) in
      match returned with
      | Some v => ret v
      | None => ret (Some (imgUrl author filename))
      end
    end.

Definition getImageUrl (author filename : string) : Js State (option string) :=
  let cacheKey := getCacheKey author filename in
  let* has := gets (fun s => bool_decide (is_Some (cachedImageUrls s !! cacheKey))) in
  if has then gets (fun s => cachedImageUrls s !! cacheKey)
  else cacheImage author filename.

Definition getCachedImageUrlForTemplate (author filename : string)
  : Js State (option string) :=
  let cacheKey := getCacheKey author filename in
  gets (fun s => cachedImageUrls s !! cacheKey).

(** A session: the calls made one after the other, each run to completion,
    given as (author, filename) pairs. *)
Definition session (calls : list (string * string)) (s : State) : State :=
  fold_left (fun s c => exec (cacheImage c.1 c.2) s) calls s.

End WithRuntime.

End ImageCache.

(** ** Navigation: the two modals and the browser history *)

Module Navigation.

(** The state object of a history entry, as the component pushes it:
    [{ bookDetail: true, bookName }] or [{ epubReader: true, bookName }]. *)
Inductive Tag :=
  | BookDetail (bookName : string)
  | EpubReader (bookName : string).

(** A session-history entry: its state object ([None] for [null]) and the
    fragment of its URL as [location.hash] reports it (empty, or starting
    with [#]). *)
Record Entry := {
  state : option Tag;
  hash : string
}.

Record State := {
  books : list Book;
  selectedBook : option Book;
  showBookDetail : bool;
  showEpubReader : bool;
  currentBook : option Book;
  epubBook : option string;      (* the engine's book, by the URL it was opened on *)
  rendition : option string;
  keydown : bool;                (* handleEpubNavigation is registered *)
  entries : list Entry;          (* the session history of the tab *)
  cursor : nat                   (* index of the current entry *)
}.

Definition set_selectedBook (v : option Book) (s : State) : State :=
  {| books := books s; selectedBook := v; showBookDetail := showBookDetail s;
     showEpubReader := showEpubReader s; currentBook := currentBook s;
     epubBook := epubBook s; rendition := rendition s; keydown := keydown s;
     entries := entries s; cursor := cursor s |}.
Definition set_showBookDetail (v : bool) (s : State) : State :=
  {| books := books s; selectedBook := selectedBook s; showBookDetail := v;
     showEpubReader := showEpubReader s; currentBook := currentBook s;
     epubBook := epubBook s; rendition := rendition s; keydown := keydown s;
     entries := entries s; cursor := cursor s |}.
Definition set_showEpubReader (v : bool) (s : State) : State :=
  {| books := books s; selectedBook := selectedBook s; showBookDetail := showBookDetail s;
     showEpubReader := v; currentBook := currentBook s;
     epubBook := epubBook s; rendition := rendition s; keydown := keydown s;
     entries := entries s; cursor := cursor s |}.
Definition set_currentBook (v : option Book) (s : State) : State :=
  {| books := books s; selectedBook := selectedBook s; showBookDetail := showBookDetail s;
     showEpubReader := showEpubReader s; currentBook := v;
     epubBook := epubBook s; rendition := rendition s; keydown := keydown s;
     entries := entries s; cursor := cursor s |}.
Definition set_epubBook (v : option string) (s : State) : State :=
  {| books := books s; selectedBook := selectedBook s; showBookDetail := showBookDetail s;
     showEpubReader := showEpubReader s; currentBook := currentBook s;
     epubBook := v; rendition := rendition s; keydown := keydown s;
     entries := entries s; cursor := cursor s |}.
Definition set_rendition (v : option string) (s : State) : State :=
  {| books := books s; selectedBook := selectedBook s; showBookDetail := showBookDetail s;
     showEpubReader := showEpubReader s; currentBook := currentBook s;
     epubBook := epubBook s; rendition := v; keydown := keydown s;
     entries := entries s; cursor := cursor s |}.
Definition set_keydown (v : bool) (s : State) : State :=
  {| books := books s; selectedBook := selectedBook s; showBookDetail := showBookDetail s;
     showEpubReader := showEpubReader s; currentBook := currentBook s;
     epubBook := epubBook s; rendition := rendition s; keydown := v;
     entries := entries s; cursor := cursor s |}.
Definition set_history (es : list Entry) (c : nat) (s : State) : State :=
  {| books := books s; selectedBook := selectedBook s; showBookDetail := showBookDetail s;
     showEpubReader := showEpubReader s; currentBook := currentBook s;
     epubBook := epubBook s; rendition := rendition s; keydown := keydown s;
     entries := es; cursor := c |}.

(** The page as it is once the catalog is loaded: nothing open, one history
    entry with no state and no fragment. *)
Definition initial (catalog : list Book) : State :=
  {| books := catalog; selectedBook := None; showBookDetail := false;
     showEpubReader := false; currentBook := None;
     epubBook := None; rendition := None; keydown := false;
     entries := [ {| state := None; hash := "" |} ]; cursor := 0 |}.

(** *** The History API *)

(** [history.pushState(tag, title, fragment)]: the entries after the current
    one are dropped, the new entry is appended and becomes current. *)
Definition pushState (tag : Tag) (fragment : string) : Js State unit :=
  modify (fun s =>
    set_history
      (take (S (cursor s)) (entries s) ++ [ {| state := Some tag; hash := fragment |} ])
      (S (cursor s)) s).

(** [history.replaceState(null, title, pathname + search)]: the current entry
    loses its state and its fragment. *)
Definition replaceState_null : Js State unit :=
  modify (fun s =>
    set_history (<[cursor s := {| state := None; hash := "" |}]> (entries s)) (cursor s) s).

(** [window.location.hash] *)
Definition location_hash (s : State) : string :=
  match entries s !! cursor s with
  | Some e => hash e
  | None => ""
  end.

(** The state object of the current entry. *)
Definition history_state (s : State) : option Tag :=
  match entries s !! cursor s with
  | Some e => state e
  | None => None
  end.

Section WithRuntime.
Context `{JSRuntime}.

(** The rendering engine: whether [rendition.display()] resolves for the
    document at the given URL. *)
Variable engine : string -> bool.

Definition showBookDetails (book : Book) : Js State unit :=
  modify (set_selectedBook (Some book)) ;;
  modify (set_showBookDetail true) ;;
  pushState (BookDetail (name book)) ("#book-" +:+ encodeURIComponent (name book)).

Definition closeBookDetail : Js State unit :=
  modify (set_showBookDetail false) ;;
  modify (set_selectedBook None) ;;
  let* h := gets location_hash in
  if truthy h then replaceState_null else ret tt.

(** The parameter [skipHistoryBack] of the source is not read by the body. *)
Definition closeEpubReader (skipHistoryBack : bool) : Js State unit :=
  modify (set_showEpubReader false) ;;
  modify (set_currentBook None) ;;
  modify (set_rendition None) ;;
  modify (set_epubBook None) ;;
  modify (set_keydown false) ;;
  let* h := gets location_hash in
  if truthy h then replaceState_null else ret tt.

Definition epubUrl (book : Book) : string :=
  baseUrl +:+ "/author/" +:+ encodeURIComponent (author book) +:+ "/"
    +:+ encodeURIComponent (name book) +:+ ".epub".

(** The whole body is inside [try]; the handler alerts and closes the
    reader.  The asynchronous function is run to completion in one step; the
    viewer element exists because [showEpubReader] has just been set. *)
Definition openEpubReader (book : Book) : Js State unit :=
  try_catch
    (modify (set_currentBook (Some book)) ;;
     modify (set_showEpubReader true) ;;
     modify (set_showBookDetail false) ;;
     pushState (EpubReader (name book)) ("#reading-" +:+ encodeURIComponent (name book)) ;;
     modify (set_epubBook (Some (epubUrl book))) ;;
     modify (set_rendition (Some (epubUrl book))) ;;
     (if engine (epubUrl book) then ret tt else throw "display") ;;
     modify (set_keydown true))
    (fun _ => closeEpubReader false).

Definition findByName (bookName : string) (s : State) : option Book :=
  find (fun b => bool_decide (name b = bookName)) (books s).

(** The popstate listener; [event_state] is [event.state]. *)
Definition handlePopState (event_state : option Tag) : Js State unit :=
  match event_state with
  | Some (EpubReader bookName) =>
    let* book := gets (findByName bookName) in
    let* shown := gets showEpubReader in
    match book with
    | Some b => if negb shown then openEpubReader b else ret tt
    | None => ret tt
    end
  | Some (BookDetail bookName) =>
    let* book := gets (findByName bookName) in
    match book with
    | Some b => modify (set_selectedBook (Some b)) ;; modify (set_showBookDetail true)
    | None => ret tt
    end ;;
    let* shown := gets showEpubReader in
    if shown then closeEpubReader true else ret tt
  | None =>
    let* shown := gets showEpubReader in
    (if shown then closeEpubReader true else ret tt) ;;
    let* detail := gets showBookDetail in
    if detail
    then modify (set_showBookDetail false) ;; modify (set_selectedBook None)
    else ret tt
  end.

(** *** The browser's back and forward buttons

    The browser moves the cursor, then fires popstate with the state object
    of the entry it arrived at.  At either end of the session history of the
    page nothing happens. *)
Definition traverse (target : nat) : Js State unit :=
  modify (fun s => set_history (entries s) target s) ;;
  let* st := gets history_state in
  handlePopState st.

Definition back : Js State unit :=
  let* c := gets cursor in
  match c with
  | 0 => ret tt
  | S c' => traverse c'
  end.

Definition forward : Js State unit :=
  let* c := gets cursor in
  let* n := gets (fun s => length (entries s)) in
  if decide (S c < n) then traverse (S c) else ret tt.

(** The operations of the navigation component. *)
Inductive Op :=
  | SelectBook (book : Book)      (* click on a card: showBookDetails *)
  | OpenReader (book : Book)      (* the Read button: openEpubReader *)
  | CloseDetail                   (* closeBookDetail *)
  | CloseReader                   (* closeEpubReader *)
  | Back
  | Forward.

Definition step (op : Op) : Js State unit :=
  match op with
  | SelectBook book => showBookDetails book
  | OpenReader book => openEpubReader book
  | CloseDetail => closeBookDetail
  | CloseReader => closeEpubReader false
  | Back => back
  | Forward => forward
  end.

Definition run (ops : list Op) (s : State) : State :=
  fold_left (fun s op => exec (step op) s) ops s.

End WithRuntime.

(** The invariant of the history synchronisation: what is open is what the
    state object of the current entry says. *)
Definition matches_tag (s : State) : bool :=
  match history_state s with
  | Some (BookDetail bookName) =>
    showBookDetail s && negb (showEpubReader s) &&
    bool_decide (name <$> selectedBook s = Some bookName)
  | Some (EpubReader bookName) =>
    showEpubReader s && negb (showBookDetail s) &&
    bool_decide (name <$> currentBook s = Some bookName)
  | None => negb (showBookDetail s) && negb (showEpubReader s)
  end.

Definition at_most_one_open (s : State) : bool :=
  negb (showBookDetail s && showEpubReader s).

End Navigation.

(** ** A runtime to compute with

    An implementation of the interface that agrees with the JavaScript
    built-ins on strings of printable ASCII characters (and, for
    [encodeURIComponent], on the UTF-8 bytes of any string).  It is used to
    evaluate the model on concrete inputs. *)

Module Ascii_runtime.

Definition lower_char (c : ascii) : ascii :=
  let n := nat_of_ascii c in
  if decide (65 <= n <= 90) then ascii_of_nat (n + 32) else c.

Fixpoint lower (s : string) : string :=
  match s with
  | EmptyString => EmptyString
  | String c s' => String (lower_char c) (lower s')
  end.

Fixpoint trimStart (s : string) : string :=
  match s with
  | EmptyString => EmptyString
  | String c s' => if Ascii.is_space c then trimStart s' else s
  end.

Definition trimEnd (s : string) : string :=
  String.rev (trimStart (String.rev s)).

Definition trim (s : string) : string := trimEnd (trimStart s).

Definition unreserved (c : ascii) : bool :=
  let n := nat_of_ascii c in
  bool_decide (48 <= n <= 57) || bool_decide (65 <= n <= 90) ||
  bool_decide (97 <= n <= 122) ||
  bool_decide (c ∈ ["-"; "_"; "."; "!"; "~"; "*"; "'"; "("; ")"]%char).

Definition hex_digit (n : nat) : ascii :=
  if decide (n < 10) then ascii_of_nat (48 + n) else ascii_of_nat (55 + n).

Fixpoint percent_encode (s : string) : string :=
  match s with
  | EmptyString => EmptyString
  | String c s' =>
    if unreserved c then String c (percent_encode s')
    else
      let n := nat_of_ascii c in
      String "%" (String (hex_digit (n / 16)) (String (hex_digit (n mod 16))
        (percent_encode s')))
  end.

Definition dquote : ascii := "034"%char.

Fixpoint escape (s : string) : string :=
  match s with
  | EmptyString => EmptyString
  | String c s' =>
    if decide (c = dquote \/ c = "\"%char)
    then String "\" (String c (escape s'))
    else String c (escape s')
  end.

Definition quote (s : string) : string :=
  String dquote (escape s) +:+ String dquote "".

Fixpoint join (sep : string) (l : list string) : string :=
  match l with
  | [] => ""
  | [x] => x
  | x :: rest => x +:+ sep +:+ join sep rest
  end.

Definition stringify (l : list string) : string :=
  "[" +:+ join "," (quote <$> l) +:+ "]".

End Ascii_runtime.

#[local] Instance ascii_runtime : JSRuntime := {|
  toLowerCase := Ascii_runtime.lower;
  trim := Ascii_runtime.trim;
  trim_empty := eq_refl;
  encodeURIComponent := Ascii_runtime.percent_encode;
  JSON_stringify := Ascii_runtime.stringify;
  baseUrl := "https://books.example"
|}.

(** ** Sample data: the catalog of the specification's scenarios *)

Definition bookX : Book :=
  {| name := "X"; author := "A"; category := Some "Fiction";
     isCoverImg := true; size_in_bytes := None |}.

Definition bookY : Book :=
  {| name := "Y"; author := "B"; category := Some "Poetry";
     isCoverImg := false; size_in_bytes := None |}.

(** A store with nothing saved and room for a kilobyte, and one whose quota
    is exhausted (as in a private-browsing window without storage). *)
Definition roomy_storage : Storage := {| items := ∅; quota := 1024 |}.
Definition full_storage : Storage := {| items := ∅; quota := 0 |}.

(** A catalog entry whose file is empty. *)
Definition bookEmpty : Book :=
  {| name := "Z"; author := "C"; category := None;
     isCoverImg := false; size_in_bytes := Some 0%Z |}.

(** A session of the image cache that has fetched nothing yet, a network
    that is down, and one that serves every image. *)
Definition fresh_cache : ImageCache.State :=
  {| ImageCache.cachedImageUrls := ∅; ImageCache.localStorage := roomy_storage;
     ImageCache.requests := []; ImageCache.blobs := 0 |}.

Definition offline : nat -> string -> ImageCache.FetchOutcome :=
  fun _ _ => ImageCache.NetworkError.

Definition online : nat -> string -> ImageCache.FetchOutcome :=
  fun _ _ => ImageCache.Response true "jpeg".

(** A network that drops the first request of the session and serves every
    later one, and a new session in a browser whose durable store holds the
    flag of the cover of X from an earlier session. *)
Definition flaky : nat -> string -> ImageCache.FetchOutcome :=
  fun n _ => match n with
             | 0 => ImageCache.NetworkError
             | S _ => ImageCache.Response true "jpeg"
             end.


(** ** Filter controls and the options of the two selectors *)

(** The order in which [Array.prototype.sort()] without a comparator puts
    strings: the lexicographic order of their UTF-16 code units.  The
    strings of this development do not fix an encoding, so the order is an
    interface of the runtime, like the string built-ins: a decidable total
    order on strings. *)
Class JSStringOrder := {
  code_unit_le : relation string;
  code_unit_le_dec :: RelDecision code_unit_le;
  code_unit_le_po :: PartialOrder code_unit_le;
  code_unit_le_total :: Total code_unit_le
}.

Module Facets.

(** [toggleFavoritesFilter] and [clearAllFilters], on the four refs of the
    filter. *)
Definition toggleFavoritesFilter (st : Filter.FilterState) : Filter.FilterState :=
  {| Filter.searchQuery := Filter.searchQuery st;
     Filter.selectedAuthor := Filter.selectedAuthor st;
     Filter.selectedCategory := Filter.selectedCategory st;
     Filter.showFavoritesOnly := negb (Filter.showFavoritesOnly st) |}.

Definition clearAllFilters (st : Filter.FilterState) : Filter.FilterState :=
  {| Filter.searchQuery := ""; Filter.selectedAuthor := "";
     Filter.selectedCategory := ""; Filter.showFavoritesOnly := false |}.

(** [[...new Set(arr)]]: the distinct elements, each at the place of its
    first occurrence. *)
Fixpoint unique (arr : list string) : list string :=
  match arr with
  | [] => []
  | x :: rest => x :: List.filter (fun y => negb (bool_decide (y = x))) (unique rest)
  end.

(** [arr.sort()] without a comparator, on an array of strings: ascending
    in the order of [JSStringOrder].  That order is total and antisymmetric,
    so the ascending arrangement of an array is unique and does not depend
    on the sorting algorithm of the engine. *)
Definition sort `{JSStringOrder} (arr : list string) : list string :=
  merge_sort code_unit_le arr.

(** [arr.filter(Boolean)] on the categories: a missing category and the
    empty string are dropped. *)
Definition truthy_categories (books : list Book) : list string :=
  omap (fun book =>
          match category book with
          | Some c => if truthy c then Some c else None
          | None => None
          end) books.

Definition authors `{JSStringOrder} (books : list Book) : list string :=
  let uniqueAuthors := unique (author <$> books) in
  sort uniqueAuthors.

Definition categories `{JSStringOrder} (books : list Book) : list string :=
  let uniqueCategories := unique (truthy_categories books) in
  sort uniqueCategories.

(** The filter state in which only the author, or only the category, is
    selected. *)
Definition only_author (a : string) : Filter.FilterState :=
  {| Filter.searchQuery := ""; Filter.selectedAuthor := a;
     Filter.selectedCategory := ""; Filter.showFavoritesOnly := false |}.

Definition only_category (c : string) : Filter.FilterState :=
  {| Filter.searchQuery := ""; Filter.selectedAuthor := "";
     Filter.selectedCategory := c; Filter.showFavoritesOnly := false |}.

End Facets.

(** On ASCII text a code unit is a character code, and the order of the
    code units is the order of the character codes. *)
#[local] Instance ascii_order : JSStringOrder := {| code_unit_le := String.le |}.

(** The filter state with a blank search text replaced by the empty one. *)
Definition without_search (st : Filter.FilterState) : Filter.FilterState :=
  {| Filter.searchQuery := ""; Filter.selectedAuthor := Filter.selectedAuthor st;
     Filter.selectedCategory := Filter.selectedCategory st;
     Filter.showFavoritesOnly := Filter.showFavoritesOnly st |}.

(** The number of catalog books that carry a given composite key. *)
Definition books_with_key (books : list Book) (key : string) : nat :=
  length (List.filter (fun b => bool_decide (Filter.getFavoriteKey b = key)) books).

(** ** Loading the favorites at start-up *)

Module FavoritesLoad.

Section WithRuntime.
Context `{JSRuntime}.

(** [JSON.parse] on the stored text: [None] when it throws a SyntaxError,
    [Some arr] when the text denotes the array of strings [arr].  Texts that
    denote other JSON values are outside the model; the component itself
    stores nothing but arrays of strings under its key. *)
Variable JSON_parse : string -> option (list string).

Definition loadFavorites : Js Favorites.State unit :=
  try_catch
    (let* savedFavorites :=
       gets (fun s => getItem (Favorites.localStorage s) "epub-favorites") in
     match savedFavorites with
     | Some text =>
       if truthy text then
         match JSON_parse text with
         | Some arr => modify (Favorites.set_favorites arr)
         | None => throw "SyntaxError"
         end
       else ret tt
     | None => ret tt
     end)
    (fun _ => modify (Favorites.set_favorites [])).

End WithRuntime.

End FavoritesLoad.

(** A parser for the texts that [Ascii_runtime.stringify] writes: a bracketed,
    comma-separated list of quoted strings in which a backslash escapes the
    next character. *)

Module Ascii_json.

Inductive Mode :=
  | Begin                      (* before the opening bracket *)
  | Opened                     (* after the opening bracket *)
  | InString (acc : string)    (* inside a string; [acc] is reversed *)
  | Escaped (acc : string)     (* after a backslash inside a string *)
  | AfterString
  | AfterComma
  | Finished.

Fixpoint parse_go (mode : Mode) (items : list string) (s : string)
  : option (list string) :=
  match s with
  | EmptyString =>
    match mode with
    | Finished => Some (reverse items)
    | _ => None
    end
  | String c rest =>
    match mode with
    | Begin => if decide (c = "["%char) then parse_go Opened items rest else None
    | Opened =>
      if decide (c = "]"%char) then parse_go Finished items rest
      else if decide (c = Ascii_runtime.dquote) then parse_go (InString "") items rest
      else None
    | InString acc =>
      if decide (c = Ascii_runtime.dquote)
      then parse_go AfterString (String.rev acc :: items) rest
      else if decide (c = "\"%char) then parse_go (Escaped acc) items rest
      else parse_go (InString (String c acc)) items rest
    | Escaped acc => parse_go (InString (String c acc)) items rest
    | AfterString =>
      if decide (c = ","%char) then parse_go AfterComma items rest
      else if decide (c = "]"%char) then parse_go Finished items rest
      else None
    | AfterComma =>
      if decide (c = Ascii_runtime.dquote) then parse_go (InString "") items rest
      else None
    | Finished => None
    end
  end.

Definition parse (s : string) : option (list string) := parse_go Begin [] s.

End Ascii_json.

(** ** Preloading the covers of the visible books *)

(** [for (const x of arr) { body }] *)
Fixpoint for_of {S A} (arr : list A) (body : A -> Js S unit) : Js S unit :=
  match arr with
  | [] => ret tt
  | x :: rest => body x ;; for_of rest body
  end.

Module Preload.

Section WithRuntime.
Context `{JSRuntime}.
Variable net : nat -> string -> ImageCache.FetchOutcome.

(** The argument is the value of the computed [filteredBooks]. *)
Definition preloadVisibleImages (filteredBooks : list Book)
  : Js ImageCache.State unit :=
  let visibleBooks := take 20 filteredBooks in
  for_of visibleBooks (fun book =>
    if isCoverImg book then
      try_catch
        (ImageCache.cacheImage net (author book) (name book) ;; ret tt)
        (fun _ => ret tt)
    else ret tt).

End WithRuntime.

(** The (author, filename) pairs that the pass asks the cache for. *)
Definition covers (filteredBooks : list Book) : list (string * string) :=
  (fun book => (author book, name book))
    <$> List.filter isCoverImg (take 20 filteredBooks).

End Preload.

(** ** The reader's keys and buttons *)

Module Reader.

(** The commands that the component sends to the rendition. *)
Inductive PageTurn :=
  | Prev      (* rendition.prev() *)
  | Next.     (* rendition.next() *)

(** What a keydown event leads to: whether [event.preventDefault()] was
    called, and the command sent to the rendition, if any. *)
Record KeyOutcome := {
  defaultPrevented : bool;
  turn : option PageTurn
}.

(** The keydown listener; [key] is [event.key]. *)
Definition handleEpubNavigation (key : string) : Js Navigation.State KeyOutcome :=
  let* r := gets Navigation.rendition in
  match r with
  | None => ret {| defaultPrevented := false; turn := None |}
  | Some _ =>
    if decide (key = "ArrowLeft")
    then ret {| defaultPrevented := true; turn := Some Prev |}
    else if decide (key = "ArrowRight")
    then ret {| defaultPrevented := true; turn := Some Next |}
    else if decide (key = "Escape")
    then Navigation.closeEpubReader false ;;
         ret {| defaultPrevented := true; turn := None |}
    else ret {| defaultPrevented := false; turn := None |}
  end.

Definition goToPrevPage : Js Navigation.State (option PageTurn) :=
  let* r := gets Navigation.rendition in
  match r with
  | Some _ => ret (Some Prev)
  | None => ret None
  end.

Definition goToNextPage : Js Navigation.State (option PageTurn) :=
  let* r := gets Navigation.rendition in
  match r with
  | Some _ => ret (Some Next)
  | None => ret None
  end.

End Reader.

(** ** Invariants of the navigation state *)

Module NavigationInv.
Import Navigation.

Section WithRuntime.
Context `{JSRuntime}.

(** No reader session is left: no current book, no engine book, no
    rendition, no key listener. *)
Definition torn_down (s : State) : Prop :=
  currentBook s = None /\ epubBook s = None /\ rendition s = None /\
  keydown s = false.

(** A reader session is up on one book. *)
Definition session_up (s : State) : Prop :=
  exists b, currentBook s = Some b /\ epubBook s = Some (epubUrl b) /\
            rendition s = Some (epubUrl b) /\ keydown s = true.

Definition consistent (s : State) : Prop :=
  cursor s < length (entries s) /\
  (if showEpubReader s then session_up s else torn_down s) /\
  (showBookDetail s = true -> is_Some (selectedBook s)).

End WithRuntime.

(** When the page lets the user perform an operation.  The cards lie under
    both overlays; the Read button and the close button of the detail view
    are inside the detail overlay, which lies under the reader overlay; the
    close button of the reader is inside the reader overlay; the browser
    buttons are always there. *)
Definition enabled (op : Op) (s : State) : Prop :=
  match op with
  | SelectBook book =>
    book ∈ books s /\ showBookDetail s = false /\ showEpubReader s = false
  | OpenReader book =>
    showBookDetail s = true /\ selectedBook s = Some book /\ showEpubReader s = false
  | CloseDetail => showBookDetail s = true /\ showEpubReader s = false
  | CloseReader => showEpubReader s = true
  | Back => True
  | Forward => True
  end.

Section Admissible.
Context `{JSRuntime}.
Variable engine : string -> bool.

(** A sequence of operations each of which is enabled when its turn comes. *)
Fixpoint admissible (ops : list Op) (s : State) : Prop :=
  match ops with
  | [] => True
  | op :: rest => enabled op s /\ admissible rest (exec (step engine op) s)
  end.

End Admissible.

(** Every tagged history entry names a book that the popstate listener will
    find in the catalog. *)
Definition tags_resolve (s : State) : Prop :=
  forall e bookName,
    e ∈ entries s ->
    state e = Some (BookDetail bookName) \/ state e = Some (EpubReader bookName) ->
    is_Some (findByName bookName s).

End NavigationInv.

(** Another entry for X by A, in another category and without a cover. *)
Definition bookX_reissue : Book :=
  {| name := "X"; author := "A"; category := Some "Classics";
     isCoverImg := false; size_in_bytes := Some 4096%Z |}.

(** A second book named X, by another author. *)
Definition bookX2 : Book :=
  {| name := "X"; author := "D"; category := None;
     isCoverImg := false; size_in_bytes := None |}.

(** What holds as long as every operation is performed only while the page
    offers it: at most one modal is shown, the selected book is a catalog
    book, and every tagged history entry names a book of the catalog. *)
Definition offered (s : Navigation.State) : Prop :=
  Navigation.at_most_one_open s = true /\
  (forall b, Navigation.selectedBook s = Some b -> b ∈ Navigation.books s) /\
  NavigationInv.tags_resolve s.

(** An engine that opens every document, and one that opens none. *)
Definition engine_ok : string -> bool := fun _ => true.
Definition engine_down : string -> bool := fun _ => false.

(** ** The older variants of the filter

    The file that holds the component also holds two earlier variants of
    it, whose filters know fewer controls. *)

Module AuthorOnly.

(** The variant with the author selector alone. *)
Definition filteredBooks (books : list Book) (selectedAuthor : string) : list Book :=
  if negb (truthy selectedAuthor) then books
  else List.filter (fun book => bool_decide (author book = selectedAuthor)) books.

End AuthorOnly.

Module AuthorCategory.

(** The variant with the author and the category selectors. *)
Definition filteredBooks (books : list Book) (selectedAuthor selectedCategory : string)
  : list Book :=
  let filtered := books in
  let filtered :=
    if truthy selectedAuthor then
      List.filter (fun book => bool_decide (author book = selectedAuthor)) filtered
    else filtered in
  let filtered :=
    if truthy selectedCategory then
      List.filter (fun book => bool_decide (category book = Some selectedCategory))
        filtered
    else filtered in
  filtered.

End AuthorCategory.

(** ** The variant with the detail view alone

    An earlier variant of the component has no reader: its popstate listener
    knows the detail tag only, and closing the detail view goes back in the
    history instead of rewriting the current entry.  Its refs are among
    those of [Navigation.State]; the others keep their initial values. *)

Module DetailOnly.
Import Navigation.

Section WithRuntime.
Context `{JSRuntime}.

Definition handlePopState (event_state : option Tag) : Js State unit :=
  match event_state with
  | Some (BookDetail bookName) =>
    let* book := gets (findByName bookName) in
    match book with
    | Some b => modify (set_selectedBook (Some b)) ;; modify (set_showBookDetail true)
    | None => ret tt
    end
  | _ => modify (set_showBookDetail false) ;; modify (set_selectedBook None)
  end.

(** The browser's buttons, and [history.back()] called by the component:
    the cursor moves, then the listener runs on the state object of the
    entry arrived at.  The traversal, which the browser performs in a later
    task, is run to completion within the operation that asks for it. *)
Definition traverse (target : nat) : Js State unit :=
  modify (fun s => set_history (entries s) target s) ;;
  let* st := gets history_state in
  handlePopState st.

Definition back : Js State unit :=
  let* c := gets cursor in
  match c with
  | 0 => ret tt
  | S c' => traverse c'
  end.

Definition forward : Js State unit :=
  let* c := gets cursor in
  let* n := gets (fun s => length (entries s)) in
  if decide (S c < n) then traverse (S c) else ret tt.

(** The same function as in the full component. *)
Definition showBookDetails (book : Book) : Js State unit :=
  modify (set_selectedBook (Some book)) ;;
  modify (set_showBookDetail true) ;;
  pushState (BookDetail (name book)) ("#book-" +:+ encodeURIComponent (name book)).

Definition closeBookDetail : Js State unit :=
  modify (set_showBookDetail false) ;;
  modify (set_selectedBook None) ;;
  let* h := gets location_hash in
  if startsWith h "#book-" then back else ret tt.

Inductive Op :=
  | SelectBook (book : Book)
  | CloseDetail
  | Back
  | Forward.

Definition step (op : Op) : Js State unit :=
  match op with
  | SelectBook book => showBookDetails book
  | CloseDetail => closeBookDetail
  | Back => back
  | Forward => forward
  end.

Definition run (ops : list Op) (s : State) : State :=
  fold_left (fun s op => exec (step op) s) ops s.

End WithRuntime.

(** An entry as this variant leaves it: untagged and without fragment, or
    tagged for the detail view of a catalog book with a [#book-] fragment. *)
Definition entry_ok (s : State) (e : Entry) : Prop :=
  match state e with
  | None => hash e = ""
  | Some (BookDetail bookName) =>
    startsWith (hash e) "#book-" = true /\ is_Some (findByName bookName s)
  | Some (EpubReader _) => False
  end.

Definition inv (s : State) : Prop :=
  showEpubReader s = false /\
  cursor s < length (entries s) /\
  matches_tag s = true /\
  (forall e, e ∈ entries s -> entry_ok s e) /\
  (exists e0, entries s !! 0 = Some e0 /\ state e0 = None).

End DetailOnly.

(** * Properties *)

(** ** Strings and arrays *)

Lemma truthy_true (s : string) : truthy s = true <-> s <> "".
Proof. destruct s; simpl; split; congruence. Qed.

Lemma truthy_false (s : string) : truthy s = false <-> s = "".
Proof. destruct s; simpl; split; congruence. Qed.

Lemma startsWith_spec (s q : string) :
  startsWith s q = true <-> exists rest, s = q +:+ rest.
Proof.
  revert s. induction q as [|c q IH]; intros s.
  - split; [intros _; by exists s | by destruct s].
  - destruct s as [|d s]; simpl.
    + split; [done | intros [rest Hrest]; discriminate].
    + destruct (decide (c = d)) as [->|Hne].
      * rewrite IH. split; intros [rest Hrest]; exists rest.
        -- by rewrite Hrest.
        -- by injection Hrest.
      * split; [done | intros [rest Hrest]; injection Hrest; congruence].
Qed.

(** [includes] is the substring test. *)
Lemma includes_spec (s q : string) :
  includes s q = true <-> exists before after, s = before +:+ q +:+ after.
Proof.
  induction s as [|d s IH]; cbn [includes].
  - rewrite orb_false_r, startsWith_spec. split.
    + intros [rest Hrest]. by exists "", rest.
    + intros [[|? ?] [after Hs]]; [by exists after | discriminate].
  - rewrite orb_true_iff, IH, startsWith_spec. split.
    + intros [[rest Hrest] | (before & after & Hs)].
      * by exists "", rest.
      * exists (String d before), after. by rewrite Hs.
    + intros ([|c before] & after & Hs).
      * left. by exists after.
      * right. exists before, after. by injection Hs.
Qed.

Lemma truthy_prefixed (c : ascii) (s t : string) : truthy (String c s +:+ t) = true.
Proof. reflexivity. Qed.

Lemma includes_empty (s : string) : includes s "" = true.
Proof. destruct s; reflexivity. Qed.

Lemma arr_includes_true (arr : list string) (k : string) :
  arr_includes arr k = true <-> k ∈ arr.
Proof. unfold arr_includes. apply bool_decide_eq_true. Qed.

Lemma filter_sublist {A} (f : A -> bool) (l : list A) : sublist (List.filter f l) l.
Proof.
  induction l as [|x l IH]; simpl; [constructor|].
  destruct (f x); by constructor.
Qed.

Lemma filter_filter {A} (f g : A -> bool) (l : list A) :
  List.filter g (List.filter f l) = List.filter (fun x => f x && g x) l.
Proof.
  induction l as [|x l IH]; simpl; [done|].
  destruct (f x); simpl; [destruct (g x)|]; by rewrite IH.
Qed.

Lemma filter_all {A} (l : list A) : List.filter (fun _ => true) l = l.
Proof. induction l; simpl; congruence. Qed.

Lemma filter_ext_in_eq {A} (f g : A -> bool) (l : list A) :
  (forall x, x ∈ l -> f x = g x) -> List.filter f l = List.filter g l.
Proof.
  intros E. induction l as [|x l IH]; simpl; [done|].
  rewrite (E x) by left. rewrite IH; [done|]. intros y Hy. apply E. by right.
Qed.

Lemma filter_ext_eq {A} (f g : A -> bool) (l : list A) :
  (forall x, f x = g x) -> List.filter f l = List.filter g l.
Proof. intros E. induction l as [|x l IH]; simpl; [done|]. by rewrite E, IH. Qed.

Lemma filter_length_mono {A} (f g : A -> bool) (l : list A) :
  (forall x, f x = true -> g x = true) ->
  length (List.filter f l) <= length (List.filter g l).
Proof.
  intros Himp. induction l as [|x l IH]; simpl; [done|].
  destruct (f x) eqn:Ef.
  - rewrite (Himp x Ef). simpl. lia.
  - destruct (g x); simpl; lia.
Qed.

Lemma elem_of_filter_bool {A} (f : A -> bool) (l : list A) (x : A) :
  x ∈ List.filter f l <-> x ∈ l /\ f x = true.
Proof. rewrite !list_elem_of_In. apply filter_In. Qed.

(** ** Filter engine *)

Section FilterFacts.
Context `{JSRuntime}.
Import Filter.

(** The chain of filters is one filter by the conjunction [passes]. *)
Lemma filteredBooks_passes (books : list Book) (favorites : list string)
  (st : FilterState) :
  filteredBooks books favorites st = List.filter (passes favorites st) books.
Proof.
  unfold filteredBooks, passes.
  destruct (truthy (trim (searchQuery st))), (truthy (selectedAuthor st)),
    (truthy (selectedCategory st)), (showFavoritesOnly st);
    rewrite ?filter_filter; try apply filter_ext_eq; try (symmetry; apply filter_all);
    intros b; simpl; rewrite ?andb_true_r, ?andb_assoc; reflexivity.
Qed.

Lemma passes_satisfies (favorites : list string) (st : FilterState) (b : Book) :
  passes favorites st b = true <-> satisfies favorites st b.
Proof.
  unfold passes, satisfies, isFavorite.
  rewrite !andb_true_iff, <- !truthy_true.
  destruct (truthy (trim (searchQuery st))), (truthy (selectedAuthor st)),
    (truthy (selectedCategory st)), (showFavoritesOnly st);
    rewrite ?bool_decide_eq_true, ?arr_includes_true;
    intuition (auto; congruence).
Qed.

(** C1, as amended: the filtered view is a subsequence of the catalog in
    catalog order, and it holds exactly the catalog books that satisfy every
    active constraint, where the search constraint is that the lowercased
    name contains the lowercased and trimmed search text, and is active only
    when the trimmed search text is not empty. *)
Theorem filteredBooks_sound (books : list Book) (favorites : list string)
  (st : FilterState) :
  sublist (filteredBooks books favorites st) books /\
  (forall b, b ∈ filteredBooks books favorites st <->
             b ∈ books /\ satisfies favorites st b).
Proof.
  rewrite filteredBooks_passes. split.
  - apply filter_sublist.
  - intros b. by rewrite elem_of_filter_bool, passes_satisfies.
Qed.

(** C8: switching on one more constraint never lengthens the result. *)
Theorem filteredBooks_activate_le (books : list Book) (favorites : list string)
  (st st' : FilterState) :
  activates st st' ->
  length (filteredBooks books favorites st')
  <= length (filteredBooks books favorites st).
Proof.
  intros Hact. rewrite !filteredBooks_passes.
  apply filter_length_mono. intros b.
  unfold passes. destruct Hact as [st q E | st a E | st c E | st E]; simpl;
    rewrite E, ?trim_empty; simpl; rewrite !andb_true_iff; tauto.
Qed.

(** C10: the displayed count is the number of catalog books whose composite
    key is a favorite, at most the size of the catalog; favorite keys that
    belong to no catalog book do not count, so the count is not the size of
    the favorites array. *)
Theorem favoriteCount_counts_catalog (books : list Book) (favorites : list string) :
  favoriteCount books favorites = favorites_in_catalog books favorites /\
  favoriteCount books favorites <= length books /\
  forall orphans,
    (forall b, b ∈ books -> getFavoriteKey b ∉ orphans) ->
    favoriteCount books (favorites ++ orphans) = favoriteCount books favorites.
Proof.
  unfold favoriteCount, favorites_in_catalog. repeat split.
  - induction books as [|b books IH]; simpl; [done|].
    rewrite <- IH. unfold isFavorite at 1, arr_includes.
    destruct (decide (getFavoriteKey b ∈ favorites)) as [Hin|Hout].
    + by rewrite bool_decide_eq_true_2.
    + by rewrite bool_decide_eq_false_2.
  - apply List.filter_length_le.
  - intros orphans Horph. f_equal. apply filter_ext_in_eq. intros b Hb.
    unfold isFavorite, arr_includes. apply bool_decide_ext.
    rewrite elem_of_app. specialize (Horph b Hb). tauto.
Qed.

End FilterFacts.

(** The search text [" y"] selects the book named [Y], whose lowercased name
    does not contain the lowercased text with its leading blank: C1 as
    stated fails on it. *)
Lemma filteredBooks_untrimmed_query :
  let st := {| Filter.searchQuery := " y"; Filter.selectedAuthor := "";
               Filter.selectedCategory := ""; Filter.showFavoritesOnly := false |} in
  ~ (forall b, b ∈ Filter.filteredBooks [bookX; bookY] [] st ->
               Filter.satisfies_as_specified [] st b).
Proof.
  intros st Hclaim.
  assert (bookY ∈ Filter.filteredBooks [bookX; bookY] [] st) as Hin
    by (vm_compute; left).
  destruct (Hclaim bookY Hin) as [Hinc _]. vm_compute in Hinc. discriminate.
Qed.

Lemma filteredBooks_activate_le_witness :
  length (Filter.filteredBooks [bookX; bookY] []
            {| Filter.searchQuery := ""; Filter.selectedAuthor := "A";
               Filter.selectedCategory := ""; Filter.showFavoritesOnly := false |})
  <= length (Filter.filteredBooks [bookX; bookY] [] Filter.no_filter).
Proof.
  apply (filteredBooks_activate_le [bookX; bookY] [] Filter.no_filter).
  apply (Filter.activates_author Filter.no_filter "A"). reflexivity.
Defined.

Lemma favoriteCount_counts_catalog_witness :
  Filter.favoriteCount [bookX; bookY] (["A|X"] ++ ["Z|Gone"])
  = Filter.favoriteCount [bookX; bookY] ["A|X"].
Proof.
  destruct (favoriteCount_counts_catalog [bookX; bookY] ["A|X"]) as (_ & _ & Horph).
  apply (Horph ["Z|Gone"]).
  intros b Hb Hin. apply list_elem_of_singleton in Hin.
  repeat (apply elem_of_cons in Hb as [-> | Hb]); [discriminate | discriminate |].
  by apply elem_of_nil in Hb.
Defined.

(** The scenarios of the specification, on the two-book catalog. *)
Example scenario_author :
  Filter.filteredBooks [bookX; bookY] []
    {| Filter.searchQuery := ""; Filter.selectedAuthor := "A";
       Filter.selectedCategory := ""; Filter.showFavoritesOnly := false |} = [bookX].
Proof. reflexivity. Qed.

Example scenario_search :
  Filter.filteredBooks [bookX; bookY] []
    {| Filter.searchQuery := "y"; Filter.selectedAuthor := "";
       Filter.selectedCategory := ""; Filter.showFavoritesOnly := false |} = [bookY].
Proof. reflexivity. Qed.

Example favoriteCount_not_array_size :
  Filter.favoriteCount [bookX; bookY] ["A|X"; "Z|Gone"] = 1 /\
  length ["A|X"; "Z|Gone"] = 2.
Proof. split; reflexivity. Qed.

(** ** Favorites store *)

Lemma indexOf_None (arr : list string) (k : string) :
  indexOf arr k = None <-> k ∉ arr.
Proof.
  induction arr as [|x arr IH]; simpl.
  - split; [intros _; apply not_elem_of_nil | done].
  - rewrite not_elem_of_cons. destruct (decide (x = k)) as [->|Hne].
    + split; [done | intros [? _]; congruence].
    + destruct (indexOf arr k); simpl.
      * split; [done | intros [_ Hout]; by apply IH in Hout].
      * split; [intros _; split; [congruence | by apply IH] | done].
Qed.

Lemma indexOf_Some_lookup (arr : list string) (k : string) (i : nat) :
  indexOf arr k = Some i -> arr !! i = Some k.
Proof.
  revert i. induction arr as [|x arr IH]; intros i; simpl; [done|].
  destruct (decide (x = k)) as [->|Hne].
  - by intros [= <-].
  - destruct (indexOf arr k) as [j|]; simpl; [|done].
    intros [= <-]. by apply IH.
Qed.

(** In an array without duplicates, [splice] at the index of [k] removes [k]. *)
Lemma indexOf_delete_absent (arr : list string) (k : string) (i : nat) :
  NoDup arr -> indexOf arr k = Some i -> k ∉ delete i arr.
Proof.
  intros Hnd. revert i. induction Hnd as [|x arr Hx Hnd IH]; intros i; simpl; [done|].
  destruct (decide (x = k)) as [->|Hne].
  - by intros [= <-].
  - destruct (indexOf arr k) as [j|]; simpl; [|done].
    intros [= <-]. simpl. rewrite not_elem_of_cons. split; [congruence | by apply IH].
Qed.

Lemma indexOf_delete_other (arr : list string) (k k' : string) (i : nat) :
  k' <> k -> indexOf arr k = Some i -> k' ∈ delete i arr <-> k' ∈ arr.
Proof.
  intros Hne. revert i. induction arr as [|x arr IH]; intros i; simpl; [done|].
  destruct (decide (x = k)) as [->|Hxk].
  - intros [= <-]. simpl. rewrite elem_of_cons. tauto.
  - destruct (indexOf arr k) as [j|]; simpl; [|done].
    intros [= <-]. simpl. rewrite !elem_of_cons, (IH j); tauto.
Qed.

Lemma indexOf_snoc_fresh (arr : list string) (k : string) :
  k ∉ arr -> indexOf (arr ++ [k]) k = Some (length arr).
Proof.
  induction arr as [|x arr IH]; simpl; intros Hout.
  - by rewrite decide_True.
  - apply not_elem_of_cons in Hout as [Hne Hout].
    rewrite decide_False by congruence. by rewrite IH.
Qed.

Lemma delete_snoc (arr : list string) (k : string) :
  delete (length arr) (arr ++ [k]) = arr.
Proof. induction arr as [|x arr IH]; simpl; [done | by rewrite IH]. Qed.

Section FavoritesFacts.
Context `{JSRuntime}.
Import Favorites.

Lemma toggleFavorite_run (book : Book) (s : State) :
  let arr := toggled (favorites s) (getFavoriteKey book) in
  toggleFavorite book s =
  (Normal tt,
   {| favorites := arr;
      localStorage :=
        match setItem (localStorage s) "epub-favorites" (JSON_stringify arr) with
        | Some st => st
        | None => localStorage s
        end |}).
Proof.
  unfold toggleFavorite, toggled, saveFavorites, try_catch, bind, gets, modify,
    localStorage_setItem, ret.
  destruct (indexOf (favorites s) (getFavoriteKey book)); simpl;
    match goal with |- context [setItem ?st ?k ?v] => destruct (setItem st k v) end;
    reflexivity.
Qed.

Lemma setItem_getItem (st st' : Storage) (k v : string) :
  setItem st k v = Some st' -> getItem st' k = Some v.
Proof.
  unfold setItem, getItem. case_decide; [|done].
  intros [= <-]. simpl. apply lookup_insert_eq.
Qed.

Lemma toggled_NoDup (arr : list string) (key : string) :
  NoDup arr -> NoDup (toggled arr key).
Proof.
  intros Hnd. unfold toggled. destruct (indexOf arr key) as [i|] eqn:E.
  - exact (sublist_NoDup _ _ Hnd (sublist_delete arr i)).
  - apply indexOf_None in E. apply NoDup_app. repeat split; [done | | apply NoDup_singleton].
    intros x Hx ->%list_elem_of_singleton. done.
Qed.

Lemma toggled_flips (arr : list string) (key : string) :
  NoDup arr -> key ∈ toggled arr key <-> key ∉ arr.
Proof.
  intros Hnd. unfold toggled. destruct (indexOf arr key) as [i|] eqn:E.
  - pose proof (indexOf_delete_absent _ _ _ Hnd E) as Hout.
    apply indexOf_Some_lookup, list_elem_of_lookup_2 in E. tauto.
  - apply indexOf_None in E. rewrite elem_of_app, list_elem_of_singleton. tauto.
Qed.

Lemma toggled_other (arr : list string) (key k : string) :
  k <> key -> k ∈ toggled arr key <-> k ∈ arr.
Proof.
  intros Hne. unfold toggled. destruct (indexOf arr key) as [i|] eqn:E.
  - exact (indexOf_delete_other arr key k i Hne E).
  - rewrite elem_of_app, list_elem_of_singleton. tauto.
Qed.

(** C4, as amended.  On a favorites array without duplicates (a set of
    keys), [toggleFavorite] never throws and flips the membership of the
    book's key, so two toggles restore the membership of every key; the
    array stays free of duplicates.  After a toggle whose [setItem]
    succeeds, durable storage holds the serialisation of the in-memory
    array; when [setItem] throws, the error is swallowed, the in-memory
    array keeps the change and durable storage is as before. *)
Theorem toggleFavorite_twice (book : Book) (s : State) :
  NoDup (favorites s) ->
  let s1 := exec (toggleFavorite book) s in
  let s2 := exec (toggleFavorite book) s1 in
  result (toggleFavorite book) s = Normal tt /\
  isFavorite s1 book = negb (isFavorite s book) /\
  isFavorite s2 book = isFavorite s book /\
  (forall k, k ∈ favorites s2 <-> k ∈ favorites s) /\
  NoDup (favorites s1) /\
  match setItem (localStorage s) "epub-favorites" (JSON_stringify (favorites s1)) with
  | Some st => localStorage s1 = st /\ persisted s1
  | None => localStorage s1 = localStorage s
  end.
Proof.
  intros Hnd s1 s2. subst s2 s1. unfold exec, result.
  rewrite (toggleFavorite_run book s). cbn [fst snd].
  rewrite toggleFavorite_run. cbn [fst snd favorites localStorage].
  set (key := getFavoriteKey book). set (arr := favorites s) in *.
  pose proof (toggled_NoDup arr key Hnd) as Hnd1.
  pose proof (toggled_flips arr key Hnd) as Hflip1.
  pose proof (toggled_flips _ key Hnd1) as Hflip2.
  assert (forall k, k ∈ toggled (toggled arr key) key <-> k ∈ arr) as Hset.
  { intros k. destruct (decide (k = key)) as [->|Hne].
    - rewrite Hflip2, Hflip1. destruct (decide (key ∈ arr)); tauto.
    - by rewrite !toggled_other. }
  split; [done|]. unfold isFavorite, arr_includes. cbn [favorites]. fold key.
  repeat split; try done.
  - destruct (decide (key ∈ arr)) as [Hin|Hout].
    + rewrite (bool_decide_eq_true_2 _ Hin). apply bool_decide_eq_false_2. tauto.
    + rewrite (bool_decide_eq_false_2 _ Hout). apply bool_decide_eq_true_2. tauto.
  - apply bool_decide_ext, Hset.
  - apply Hset.
  - apply Hset.
  - destruct (setItem (localStorage s) "epub-favorites" (JSON_stringify (toggled arr key)))
      as [st|] eqn:E; [|done].
    split; [done|]. unfold persisted. cbn [favorites localStorage].
    by apply setItem_getItem in E.
Qed.

End FavoritesFacts.

(** With the storage quota exhausted, the toggle changes the in-memory array
    and nothing is written: C4 as stated fails on it. *)
Lemma toggleFavorite_write_fails :
  let s := {| Favorites.favorites := []; Favorites.localStorage := full_storage |} in
  let s1 := exec (Favorites.toggleFavorite bookX) s in
  Favorites.favorites s1 = ["A|X"] /\ ~ Favorites.persisted s1.
Proof.
  split; [reflexivity|]. unfold Favorites.persisted. vm_compute. discriminate.
Qed.

Lemma toggleFavorite_twice_witness :
  let s := {| Favorites.favorites := ["B|Y"]; Favorites.localStorage := roomy_storage |} in
  let s1 := exec (Favorites.toggleFavorite bookX) s in
  NoDup (Favorites.favorites s) /\
  Favorites.isFavorite s1 bookX = negb (Favorites.isFavorite s bookX) /\
  NoDup (Favorites.favorites s1).
Proof.
  intros s s1.
  assert (NoDup (Favorites.favorites s)) as Hnd by apply NoDup_singleton.
  destruct (toggleFavorite_twice bookX s Hnd) as (_ & Hflip & _ & _ & Hnd1 & _).
  exact (conj Hnd (conj Hflip Hnd1)).
Defined.

(** ** Catalog loader *)

Section CatalogFacts.
Context `{JSRuntime}.
Import Catalog.

(** The hook never throws and issues exactly one request, to
    [summary.json]; it clears [loading]; on a response with a [book] array
    the catalog is that array filtered by [keep], in order; otherwise the
    error flag is set and the catalog is left as it was. *)
Lemma onMounted_outcome (server : AxiosOutcome) (s : State) :
  let s' := exec (onMounted server) s in
  result (onMounted server) s = Normal tt /\
  requests s' = requests s ++ [baseUrl +:+ "/summary.json"] /\
  loading s' = false /\
  match server with
  | Resolved (Some arr) => books s' = List.filter keep arr /\ error s' = error s
  | _ => books s' = books s /\ error s' = Some "Failed to load books."
  end.
Proof. destruct server as [|[arr|]]; repeat split. Qed.

(** [keep] is the documented rule, except that it also keeps size 0. *)
Lemma keep_documented_or_zero (b : Book) :
  keep b = keep_documented b || bool_decide (size_in_bytes b = Some 0%Z).
Proof.
  unfold keep, keep_documented. destruct (size_in_bytes b) as [n|]; [|done].
  destruct (decide (n = 0%Z)) as [->|Hne]; [done|].
  rewrite (bool_decide_eq_false_2 (Some n = Some 0%Z)) by congruence.
  rewrite orb_false_r. apply Z.eqb_neq in Hne. by rewrite Hne.
Qed.

End CatalogFacts.

(** C5 at a response that lists a book of 0 bytes: the load succeeds with
    one request and the book is in the catalog, though its size is below the
    threshold and the documented rule removes it. *)
Theorem onMounted_keeps_zero_size :
  let s' := exec (Catalog.onMounted (Catalog.Resolved (Some [bookEmpty; bookX])))
              Catalog.initial in
  Catalog.books s' = [bookEmpty; bookX] /\
  Catalog.error s' = None /\
  length (Catalog.requests s') = 1 /\
  List.filter Catalog.keep_documented [bookEmpty; bookX] = [bookX].
Proof. repeat split. Qed.

(** On a rejected request the error flag is set and the catalog stays empty,
    after one request. *)
Example onMounted_rejected :
  let s' := exec (Catalog.onMounted Catalog.Rejected) Catalog.initial in
  Catalog.books s' = [] /\ Catalog.error s' = Some "Failed to load books." /\
  Catalog.loading s' = false /\ length (Catalog.requests s') = 1.
Proof. repeat split. Qed.

(** ** Image cache *)

Section ImageCacheFacts.
Context `{JSRuntime}.
Variable net : nat -> string -> ImageCache.FetchOutcome.
Import ImageCache.

Ltac run_js :=
  unfold cacheImage, getImageUrl, isImageCached, markImageAsCached, fetch,
    createObjectURL, localStorage_setItem, try_catch, bind, gets, modify, ret,
    throw, exec, result, log_request, next_blob, set_cachedImageUrls,
    set_localStorage; cbn.

Lemma failed_outcome (o : FetchOutcome) :
  succeeded o = false ->
  o = NetworkError \/ exists body, o = Response false body.
Proof. destruct o as [|[] body]; simpl; [by left | done | right; by exists body]. Qed.

(** A key that has a blob handle is answered from memory: the handle is
    returned and nothing changes, in particular nothing is fetched. *)
Lemma cacheImage_hit (author filename : string) (s : State) :
  is_Some (cachedImageUrls s !! getCacheKey author filename) ->
  cacheImage net author filename s
  = (Normal (cachedImageUrls s !! getCacheKey author filename), s).
Proof.
  intros Hhit. run_js. by rewrite (bool_decide_eq_true_2 _ Hhit).
Qed.

(** [getImageUrl] repeats the test that [cacheImage] starts with. *)
Lemma getImageUrl_cacheImage (author filename : string) (s : State) :
  getImageUrl net author filename s = cacheImage net author filename s.
Proof.
  unfold getImageUrl, bind, gets.
  destruct (bool_decide (is_Some (cachedImageUrls s !! getCacheKey author filename)))
    eqn:E; [|done].
  apply bool_decide_eq_true in E. by rewrite cacheImage_hit.
Qed.

(** What one call can do.  It appends at most two requests for the image
    URL to the log.  Either no fetch of the call succeeded, and then the blob
    map, durable storage and the blob counter are untouched and the direct
    URL is returned; or one fetch succeeded, a fresh blob handle is stored
    for the key, and durable storage is either untouched or gained the flag
    of this key. *)
Lemma cacheImage_effect (author filename : string) (s : State) :
  let key := getCacheKey author filename in
  let url := imgUrl author filename in
  let s' := exec (cacheImage net author filename) s in
  exists log,
    requests s' = requests s ++ log /\ (Forall (eq url) log /\ length log <= 2) /\
    ((cachedImageUrls s' = cachedImageUrls s /\ localStorage s' = localStorage s /\
      blobs s' = blobs s /\
      result (cacheImage net author filename) s
      = Normal (if decide (is_Some (cachedImageUrls s !! key))
                then cachedImageUrls s !! key else Some url))
     \/
     (exists n,
        length (requests s) <= n < length (requests s') /\
        succeeded (net n url) = true /\
        cachedImageUrls s' = <[key := "blob:" +:+ pretty (blobs s)]> (cachedImageUrls s) /\
        blobs s' = S (blobs s) /\
        (localStorage s' = localStorage s \/
         setItem (localStorage s) (flagKey key) "true" = Some (localStorage s')))).
Proof.
  intros key url s'. subst s'. fold key url.
  destruct (decide (is_Some (cachedImageUrls s !! key))) as [Hhit|Hmiss].
  { unfold exec, result. rewrite cacheImage_hit by done. exists []. cbn.
    rewrite app_nil_r. repeat split; [constructor | lia |]. left. repeat split. }
  run_js. fold key url. rewrite (bool_decide_eq_false_2 _ Hmiss).
  destruct (bool_decide (getItem (localStorage s) (flagKey key) = Some "true")); cbn.
  - destruct (net (length (requests s)) url) as [|[] b1] eqn:E1; cbn.
    2:{ exists [url]. repeat split; [by repeat constructor | cbn; lia |]. right.
        exists (length (requests s)). rewrite length_app, E1. cbn.
        repeat split; try lia. by left. }
    all: rewrite length_app; cbn [length];
      destruct (net (length (requests s) + 1) url) as [|[] b2] eqn:E2; cbn.
    all: try destruct (setItem (localStorage s) (flagKey key) "true") as [st|] eqn:Es; cbn.
    all: exists [url; url]; rewrite <- app_assoc;
      (repeat split; [by repeat constructor | cbn; lia |]).
    all: try (left; repeat split; fail).
    all: right; exists (length (requests s) + 1); rewrite !length_app, E2; cbn;
      repeat split; try lia; auto.
  - destruct (net (length (requests s)) url) as [|[] b1] eqn:E1; cbn.
    all: try destruct (setItem (localStorage s) (flagKey key) "true") as [st|] eqn:Es; cbn.
    all: exists [url]; (repeat split; [by repeat constructor | cbn; lia |]).
    all: try (left; repeat split; fail).
    all: right; exists (length (requests s)); rewrite !length_app, E1; cbn;
      repeat split; try lia; auto.
Qed.

(** The requests of a call are the entries that it appends to the log:
    those at the positions from [length (requests s)] up to the length of
    the log after the call.  A call none of whose requests succeeds changes
    nothing but the log, and returns the direct URL when the key has no
    handle. *)
Lemma cacheImage_all_failed (author filename : string) (s : State) :
  let key := getCacheKey author filename in
  let url := imgUrl author filename in
  let s' := exec (cacheImage net author filename) s in
  (forall n, length (requests s) <= n < length (requests s') ->
     succeeded (net n url) = false) ->
  cachedImageUrls s' = cachedImageUrls s /\ localStorage s' = localStorage s /\
  (cachedImageUrls s !! key = None ->
   result (cacheImage net author filename) s = Normal (Some url)).
Proof.
  cbv zeta. intros Hfail.
  destruct (cacheImage_effect author filename s)
    as (log & Hlog & _ & [(Hmap & Hst & _ & Hres) | (n & Hn & Hok & _)]).
  - split; [done|]. split; [done|]. intros Hmiss. rewrite Hres.
    rewrite decide_False; [done|]. rewrite Hmiss. by intros [? ?].
  - rewrite (Hfail n Hn) in Hok. done.
Qed.

(** A call for a key without a handle always goes to the network: it makes
    one request, or two. *)
Lemma cacheImage_miss_fetches (author filename : string) (s : State) :
  cachedImageUrls s !! getCacheKey author filename = None ->
  exists log,
    requests (exec (cacheImage net author filename) s)
    = requests s ++ imgUrl author filename :: log /\ length log <= 1.
Proof.
  intros Hmiss. run_js.
  rewrite bool_decide_eq_false_2 by (rewrite Hmiss; by intros [? ?]).
  destruct (bool_decide (getItem (localStorage s)
              (flagKey (getCacheKey author filename)) = Some "true")); cbn.
  - destruct (net (length (requests s)) (imgUrl author filename)) as [|[] b1]; cbn.
    2:{ exists []. split; [done | cbn; lia]. }
    all: rewrite length_app; cbn [length];
      destruct (net (length (requests s) + 1) (imgUrl author filename)) as [|[] b2]; cbn.
    all: try destruct (setItem (localStorage s)
                         (flagKey (getCacheKey author filename)) "true"); cbn.
    all: exists [imgUrl author filename]; rewrite <- app_assoc; split; [done | cbn; lia].
  - destruct (net (length (requests s)) (imgUrl author filename)) as [|[] b1]; cbn.
    all: try destruct (setItem (localStorage s)
                         (flagKey (getCacheKey author filename)) "true"); cbn.
    all: exists []; split; [done | cbn; lia].
Qed.

Lemma cacheImage_never_throws (author filename : string) (s : State) :
  exists v, result (cacheImage net author filename) s = Normal v.
Proof.
  run_js.
  repeat match goal with
         | |- context [bool_decide ?P] => destruct (bool_decide P); cbn
         | |- context [net ?n ?u] => destruct (net n u) as [|[] ?]; cbn
         | |- context [setItem ?st ?k ?v] => destruct (setItem st k v); cbn
         end; eauto.
Qed.

Lemma session_cons (a f : string) (calls : list (string * string)) (s : State) :
  session net ((a, f) :: calls) s = session net calls (exec (cacheImage net a f) s).
Proof. reflexivity. Qed.

(** The request log of a session only grows. *)
Lemma session_requests (calls : list (string * string)) (s : State) :
  exists log, requests (session net calls s) = requests s ++ log.
Proof.
  revert s. induction calls as [|[a f] calls IH]; intros s.
  - exists []. by rewrite app_nil_r.
  - rewrite session_cons. destruct (cacheImage_effect a f s) as (log1 & Hlog1 & _).
    destruct (IH (exec (cacheImage net a f) s)) as (log2 & Hlog2).
    exists (log1 ++ log2). by rewrite Hlog2, Hlog1, app_assoc.
Qed.

(** Failures are not remembered.  As long as every request made fails, [k]
    calls in a row for a key without a handle leave it without a handle, and
    each of them goes to the network. *)
Lemma session_all_failed (author filename : string) (k : nat) (s : State) :
  let key := getCacheKey author filename in
  let url := imgUrl author filename in
  let sk := session net (replicate k (author, filename)) s in
  cachedImageUrls s !! key = None ->
  (forall n, length (requests s) <= n < length (requests sk) ->
     succeeded (net n url) = false) ->
  cachedImageUrls sk !! key = None /\ length (requests s) + k <= length (requests sk).
Proof.
  cbv zeta. revert s. induction k as [|k IH]; intros s Hmiss Hfail.
  - split; [done | cbn; lia].
  - cbn [replicate] in *. rewrite session_cons in *.
    destruct (session_requests (replicate k (author, filename))
                (exec (cacheImage net author filename) s)) as (rest & Hrest).
    destruct (cacheImage_miss_fetches author filename s Hmiss) as (log & Hlog & _).
    destruct (cacheImage_all_failed author filename s) as (Hmap & _).
    { intros n Hn. apply Hfail. rewrite Hrest, length_app. lia. }
    destruct (IH (exec (cacheImage net author filename) s)) as (Hmiss' & Hlen).
    + by rewrite Hmap.
    + intros n Hn. apply Hfail. rewrite Hlog, length_app in Hn. lia.
    + split; [done|]. rewrite Hlog, length_app in Hlen. cbn in Hlen. lia.
Qed.

(** C6, as amended: when the key has no blob handle and every request that
    the call makes fails, by a network error or a response that is not ok,
    [cacheImage] completes normally, without throwing, and returns the
    direct remote URL of the image, not null; so does [getImageUrl].  The
    call makes one request or two, so the condition is about at least one
    request and about none that the call does not make. *)
Theorem cacheImage_failure_returns_direct_url (author filename : string) (s : State) :
  let url := imgUrl author filename in
  let s' := exec (cacheImage net author filename) s in
  cachedImageUrls s !! getCacheKey author filename = None ->
  (forall n, length (requests s) <= n < length (requests s') ->
     succeeded (net n url) = false) ->
  result (cacheImage net author filename) s = Normal (Some url) /\
  result (getImageUrl net author filename) s = Normal (Some url) /\
  exists log, requests s' = requests s ++ url :: log /\ length log <= 1.
Proof.
  cbv zeta. intros Hmiss Hfail. unfold result at 2. rewrite getImageUrl_cacheImage.
  destruct (cacheImage_all_failed author filename s Hfail) as (_ & _ & Hres).
  split; [by apply Hres|]. split; [by apply Hres|].
  by apply cacheImage_miss_fetches.
Qed.

(** C7, as amended: once a blob handle exists for the key, a call returns it
    and changes nothing, so it fetches nothing; and when the key has no
    handle and the first fetch of a call succeeds, that call stores a handle
    after this single fetch, so the next call for the key fetches nothing:
    the two calls make exactly one request.  A failed fetch is not
    memoised: a call for a key without a handle all of whose requests fail
    leaves the key without a handle, and as long as the requests fail each
    of [k] calls in a row fetches again, so that the [k] calls make at least
    [k] requests. *)
Theorem cacheImage_memoized (author filename : string) (s : State) :
  let key := getCacheKey author filename in
  let url := imgUrl author filename in
  let s1 := exec (cacheImage net author filename) s in
  let s2 := exec (cacheImage net author filename) s1 in
  (is_Some (cachedImageUrls s !! key) \/
   succeeded (net (length (requests s)) url) = true ->
   is_Some (cachedImageUrls s1 !! key) /\
   cacheImage net author filename s1 = (Normal (cachedImageUrls s1 !! key), s1) /\
   requests s2 = requests s1 /\
   (is_Some (cachedImageUrls s !! key) -> s1 = s) /\
   (cachedImageUrls s !! key = None -> requests s2 = requests s ++ [url])) /\
  (cachedImageUrls s !! key = None ->
   (forall n, length (requests s) <= n < length (requests s1) ->
      succeeded (net n url) = false) ->
   cachedImageUrls s1 !! key = None /\
   (exists log, requests s1 = requests s ++ url :: log) /\
   (exists log, requests s2 = requests s1 ++ url :: log)) /\
  (forall k,
     let sk := session net (replicate k (author, filename)) s in
     cachedImageUrls s !! key = None ->
     (forall n, length (requests s) <= n < length (requests sk) ->
        succeeded (net n url) = false) ->
     cachedImageUrls sk !! key = None /\ length (requests s) + k <= length (requests sk)).
Proof.
  intros key url s1 s2. subst key url. split; [|split].
  - intros Hcase.
    assert (is_Some (cachedImageUrls s1 !! getCacheKey author filename) /\
            (is_Some (cachedImageUrls s !! getCacheKey author filename) -> s1 = s) /\
            (cachedImageUrls s !! getCacheKey author filename = None ->
             requests s1 = requests s ++ [imgUrl author filename]))
      as (Hhit1 & Hsame & Hone).
    { subst s1 s2.
      destruct (decide (is_Some (cachedImageUrls s !! getCacheKey author filename)))
        as [Hhit|Hmiss].
      - unfold exec. rewrite cacheImage_hit by done. cbn.
        split; [done|]. split; [done|]. intros Hnone. rewrite Hnone in Hhit.
        by destruct Hhit.
      - destruct Hcase as [Hhit|Hok]; [done|].
        split; [|split; [done|]]; revert Hok; run_js;
          rewrite (bool_decide_eq_false_2 _ Hmiss);
          destruct (bool_decide (getItem (localStorage s)
                      (flagKey (getCacheKey author filename)) = Some "true")); cbn;
          destruct (net (length (requests s)) (imgUrl author filename)) as [|[] b];
          cbn; try done;
          try destruct (setItem (localStorage s)
                          (flagKey (getCacheKey author filename)) "true");
          cbn; intros; rewrite ?lookup_insert_eq; eauto. }
    assert (cacheImage net author filename s1
            = (Normal (cachedImageUrls s1 !! getCacheKey author filename), s1)) as Hrun
      by (by apply cacheImage_hit).
    repeat split; try done.
    + subst s2. unfold exec. by rewrite Hrun.
    + intros Hnone. subst s2. unfold exec. rewrite Hrun. cbn. by apply Hone.
  - intros Hmiss Hfail.
    destruct (cacheImage_all_failed author filename s Hfail) as (Hmap & _).
    assert (cachedImageUrls s1 !! getCacheKey author filename = None) as Hmiss1
      by (subst s1; by rewrite Hmap).
    split; [done|]. split.
    + destruct (cacheImage_miss_fetches author filename s Hmiss) as (log & Hlog & _).
      by exists log.
    + destruct (cacheImage_miss_fetches author filename s1 Hmiss1) as (log & Hlog & _).
      by exists log.
  - intros k. apply session_all_failed.
Qed.

Lemma flagKey_inj (k1 k2 : string) : flagKey k1 = flagKey k2 -> k1 = k2.
Proof. unfold flagKey. apply (inj (String.app "img-cache-")). Qed.

Lemma setItem_items (st st' : Storage) (k v : string) :
  setItem st k v = Some st' -> items st' = <[k := v]> (items st).
Proof. unfold setItem. case_decide; [|done]. by intros [= <-]. Qed.



End ImageCacheFacts.

(** With the network down, [cacheImage] returns the direct URL of the image:
    C6 as stated (it returns null) fails on it. *)
Lemma cacheImage_offline_not_null :
  ImageCache.cachedImageUrls fresh_cache !! ImageCache.getCacheKey "A" "X" = None /\
  result (ImageCache.cacheImage offline "A" "X") fresh_cache
  = Normal (Some "https://books.example/author/A/X.jpg") /\
  result (ImageCache.cacheImage offline "A" "X") fresh_cache <> Normal None.
Proof. split; [reflexivity|]. split; [reflexivity | discriminate]. Qed.

(** The first request is dropped and the next one would be served: the
    key is not flagged, so the call makes the one request and returns the
    direct URL. *)
Lemma cacheImage_failure_returns_direct_url_witness :
  result (ImageCache.cacheImage flaky "A" "X") fresh_cache
  = Normal (Some (ImageCache.imgUrl "A" "X")) /\
  result (ImageCache.getImageUrl flaky "A" "X") fresh_cache
  = Normal (Some (ImageCache.imgUrl "A" "X")) /\
  ImageCache.requests (exec (ImageCache.cacheImage flaky "A" "X") fresh_cache)
  = [ImageCache.imgUrl "A" "X"].
Proof.
  destruct (cacheImage_failure_returns_direct_url flaky "A" "X" fresh_cache)
    as (Hres & Hres' & _).
  - reflexivity.
  - intros n Hn. vm_compute in Hn. assert (n = 0) as -> by lia. reflexivity.
  - split; [exact Hres|]. split; [exact Hres'|]. reflexivity.
Defined.

(** With the network down, two successive calls for one key fetch twice:
    C7 as stated (at most one fetch in total) fails on it. *)
Lemma getImageUrl_offline_fetches_twice :
  let s1 := exec (ImageCache.getImageUrl offline "A" "X") fresh_cache in
  let s2 := exec (ImageCache.getImageUrl offline "A" "X") s1 in
  length (ImageCache.requests s2) = 2 /\
  ~ length (ImageCache.requests s2) <= 1.
Proof. split; [reflexivity | intros Hle; vm_compute in Hle; lia]. Qed.

Lemma cacheImage_memoized_witness :
  let s1 := exec (ImageCache.cacheImage online "A" "X") fresh_cache in
  let s2 := exec (ImageCache.cacheImage online "A" "X") s1 in
  let s3 := ImageCache.session offline (replicate 3 ("A", "X")) fresh_cache in
  ImageCache.requests s2 = ImageCache.requests fresh_cache ++ [ImageCache.imgUrl "A" "X"] /\
  ImageCache.cachedImageUrls s3 !! ImageCache.getCacheKey "A" "X" = None /\
  length (ImageCache.requests fresh_cache) + 3 <= length (ImageCache.requests s3).
Proof.
  intros s1 s2 s3.
  destruct (cacheImage_memoized online "A" "X" fresh_cache) as (Hmemo & _).
  destruct (cacheImage_memoized offline "A" "X" fresh_cache) as (_ & _ & Hagain).
  split.
  - destruct Hmemo as (_ & _ & _ & _ & Hone); [right; reflexivity|].
    apply Hone. reflexivity.
  - apply (Hagain 3); [reflexivity|]. intros n _. reflexivity.
Defined.



(** A first call that succeeds stores a handle and flags the key; the page
    then shows the blob URL. *)
Example cacheImage_online :
  let s1 := exec (ImageCache.cacheImage online "A" "X") fresh_cache in
  result (ImageCache.cacheImage online "A" "X") fresh_cache = Normal (Some "blob:0") /\
  ImageCache.cachedImageUrls s1 !! "A|X" = Some "blob:0" /\
  getItem (ImageCache.localStorage s1) "img-cache-A|X" = Some "true" /\
  ImageCache.requests s1 = ["https://books.example/author/A/X.jpg"].
Proof. vm_compute. repeat split. Qed.

(** ** Navigation *)

Section NavigationFacts.
Context `{JSRuntime}.
Variable engine : string -> bool.
Import Navigation.

Ltac run_nav :=
  unfold step, back, forward, traverse, handlePopState, openEpubReader,
    closeEpubReader, closeBookDetail, showBookDetails, pushState, replaceState_null,
    try_catch, bind, gets, modify, ret, throw, exec, result; cbn.

Ltac split_nav :=
  repeat match goal with
         | |- context [match ?x with _ => _ end] =>
           lazymatch x with
           | context [match _ with _ => _ end] => fail
           | _ => destruct x eqn:?; cbn in *
           end
         end.

Ltac flags s :=
  destruct (showBookDetail s) eqn:?, (showEpubReader s) eqn:?; cbn in *; congruence.

(** The two branches of the popstate listener that do not re-open the reader
    leave the number of history entries and the cursor as they are. *)
Lemma handlePopState_detail_no_push (bookName : string) (s : State) :
  let s' := exec (handlePopState engine (Some (BookDetail bookName))) s in
  length (entries s') = length (entries s) /\ cursor s' = cursor s.
Proof.
  run_nav. split_nav; rewrite ?length_insert; done.
Qed.

Lemma handlePopState_null_no_push (s : State) :
  let s' := exec (handlePopState engine None) s in
  length (entries s') = length (entries s) /\ cursor s' = cursor s.
Proof.
  run_nav. split_nav; rewrite ?length_insert; done.
Qed.

(** The branch that re-opens the reader goes through [openEpubReader], which
    pushes: the entries after the current one are dropped and a new entry is
    added. *)
Lemma handlePopState_reader_pushes (bookName : string) (b : Book) (s : State) :
  findByName bookName s = Some b ->
  showEpubReader s = false ->
  cursor s < length (entries s) ->
  let s' := exec (handlePopState engine (Some (EpubReader bookName))) s in
  length (entries s') = S (S (cursor s)) /\ cursor s' = S (cursor s).
Proof.
  intros Hfind Hclosed Hcur. run_nav. rewrite Hfind, Hclosed. cbn.
  destruct (engine (epubUrl b)); cbn.
  - rewrite length_app, length_take, Nat.min_l by lia. cbn [length]. lia.
  - unfold location_hash. cbn.
    rewrite lookup_app_r by (rewrite length_take; lia).
    rewrite length_take, Nat.min_l, Nat.sub_diag by lia. cbn.
    rewrite truthy_prefixed. cbn.
    rewrite length_insert, length_app, length_take, Nat.min_l by lia.
    cbn [length]. lia.
Qed.

(** The branch for a detail entry, taken while the reader is open on an
    entry with a fragment: the detail view is shown, and closing the reader
    erases the state object of the entry the browser has just arrived at. *)
Lemma handlePopState_detail_erases_tag (bookName : string) (b : Book) (s : State) :
  findByName bookName s = Some b ->
  showEpubReader s = true ->
  truthy (location_hash s) = true ->
  cursor s < length (entries s) ->
  let s' := exec (handlePopState engine (Some (BookDetail bookName))) s in
  showBookDetail s' = true /\ showEpubReader s' = false /\
  history_state s' = None /\ matches_tag s' = false.
Proof.
  intros Hfind Hopen Hhash Hcur. run_nav. rewrite Hfind. cbn. rewrite Hopen. cbn.
  unfold location_hash in *. cbn. rewrite Hhash. cbn.
  unfold matches_tag, history_state. cbn.
  by rewrite list_lookup_insert_eq.
Qed.

(** As long as a book is only selected while the reader is closed (the
    reader covers the cards), no operation opens both modals. *)
Lemma step_at_most_one_open (op : Op) (s : State) :
  at_most_one_open s = true ->
  (forall b, op = SelectBook b -> showEpubReader s = false) ->
  at_most_one_open (exec (step engine op) s) = true.
Proof.
  unfold at_most_one_open. intros Hinv Hgate. destruct op as [b|b| | | |].
  - specialize (Hgate b eq_refl). run_nav. by rewrite Hgate.
  - run_nav. split_nav; done.
  - run_nav. split_nav; done.
  - run_nav. split_nav; rewrite ?andb_false_r; done.
  - run_nav. split_nav; rewrite ?andb_false_r; try done; flags s.
  - run_nav. split_nav; rewrite ?andb_false_r; try done; flags s.
Qed.

End NavigationFacts.

(** C2 on the sequence select X, read X, browser back.  After the first two
    operations the reader is open on the entry tagged for it.  The back
    button returns to the entry tagged [{bookDetail, X}]; the listener
    re-opens the detail view and closes the reader through
    [closeEpubReader], whose [replaceState] erases the state object and the
    fragment of that very entry: the detail view is open while the current
    entry carries no tag. *)
Theorem back_from_reader_erases_tag :
  let s2 := Navigation.run (fun _ => true)
              [Navigation.SelectBook bookX; Navigation.OpenReader bookX]
              (Navigation.initial [bookX; bookY]) in
  let s3 := Navigation.run (fun _ => true) [Navigation.Back] s2 in
  Navigation.matches_tag s2 = true /\
  Navigation.showBookDetail s3 = true /\
  Navigation.showEpubReader s3 = false /\
  Navigation.cursor s3 = 1 /\
  Navigation.entries s3 !! 1 = Some {| Navigation.state := None; Navigation.hash := "" |} /\
  Navigation.history_state s3 = None /\
  Navigation.matches_tag s3 = false.
Proof. vm_compute. repeat split. Qed.

(** C3 on the sequence select X, read X, back, forward.  The forward button
    arrives at the entry tagged [{epubReader, X}] with the reader closed; the
    listener calls [openEpubReader], which pushes: the history grows from
    three entries to four and the cursor moves past the entry the browser
    navigated to. *)
Theorem forward_to_reader_pushes_entry :
  let s3 := Navigation.run (fun _ => true)
              [Navigation.SelectBook bookX; Navigation.OpenReader bookX; Navigation.Back]
              (Navigation.initial [bookX; bookY]) in
  let s4 := Navigation.run (fun _ => true) [Navigation.Forward] s3 in
  length (Navigation.entries s3) = 3 /\
  Navigation.entries s3 !! 2
  = Some {| Navigation.state := Some (Navigation.EpubReader "X");
            Navigation.hash := "#reading-X" |} /\
  Navigation.showEpubReader s4 = true /\
  length (Navigation.entries s4) = 4 /\
  Navigation.cursor s4 = 3.
Proof. vm_compute. repeat split. Qed.

(** The second scenario of the specification: opening the detail view of X
    pushes an entry, and the back button restores the closed state. *)
Example scenario_detail_back :
  let s1 := Navigation.run (fun _ => true) [Navigation.SelectBook bookX]
              (Navigation.initial [bookX; bookY]) in
  let s2 := Navigation.run (fun _ => true) [Navigation.Back] s1 in
  length (Navigation.entries s1) = 2 /\
  Navigation.showBookDetail s2 = false /\ Navigation.showEpubReader s2 = false /\
  Navigation.matches_tag s2 = true.
Proof. vm_compute. repeat split. Qed.

(** ** Filter controls and selector options *)

Lemma unique_elem_of (arr : list string) (x : string) : x ∈ Facets.unique arr <-> x ∈ arr.
Proof.
  induction arr as [|y arr IH]; simpl; [done|].
  rewrite !elem_of_cons, elem_of_filter_bool, IH, negb_true_iff, bool_decide_eq_false.
  destruct (decide (x = y)); tauto.
Qed.

Lemma filter_NoDup {A} (f : A -> bool) (l : list A) : NoDup l -> NoDup (List.filter f l).
Proof. intros Hnd. exact (sublist_NoDup _ _ Hnd (filter_sublist f l)). Qed.

Lemma unique_NoDup (arr : list string) : NoDup (Facets.unique arr).
Proof.
  induction arr as [|y arr IH]; simpl; constructor.
  - rewrite elem_of_filter_bool, negb_true_iff, bool_decide_eq_false. tauto.
  - by apply filter_NoDup.
Qed.

Section SortFacts.
Context `{JSStringOrder}.

Lemma sort_elem_of (arr : list string) (x : string) : x ∈ Facets.sort arr <-> x ∈ arr.
Proof. unfold Facets.sort. by rewrite merge_sort_Permutation. Qed.

Lemma sort_NoDup (arr : list string) : NoDup arr -> NoDup (Facets.sort arr).
Proof. unfold Facets.sort. by rewrite merge_sort_Permutation. Qed.

Lemma sort_sorted (arr : list string) : StronglySorted code_unit_le (Facets.sort arr).
Proof. unfold Facets.sort. apply StronglySorted_merge_sort; apply _. Qed.

(** The result of [sort] is the only ascending arrangement of the array, so
    it is what any correct sorting algorithm returns. *)
Lemma sort_unique (arr l : list string) :
  l ≡ₚ arr -> StronglySorted code_unit_le l -> l = Facets.sort arr.
Proof.
  intros Hperm Hsorted. apply (StronglySorted_unique code_unit_le); [done | apply sort_sorted |].
  unfold Facets.sort. by rewrite merge_sort_Permutation.
Qed.

End SortFacts.

Lemma truthy_categories_elem_of (books : list Book) (c : string) :
  c ∈ Facets.truthy_categories books <->
  c <> "" /\ exists b, b ∈ books /\ category b = Some c.
Proof.
  unfold Facets.truthy_categories. rewrite list_elem_of_omap. split.
  - intros (b & Hb & Hc). destruct (category b) as [c'|] eqn:E; [|done].
    destruct (truthy c') eqn:Et; [|done]. injection Hc as ->.
    split; [by apply truthy_true | eauto].
  - intros (Hne & b & Hb & Hc). exists b. split; [done|]. rewrite Hc.
    apply truthy_true in Hne. by rewrite Hne.
Qed.

Section FacetsFacts.
Context `{JSRuntime}.
Import Filter Facets.

(** With no search text the search constraint is off. *)
Lemma passes_no_search (favorites : list string) (st : FilterState) (b : Book) :
  trim (searchQuery st) = "" ->
  passes favorites st b
  = (if truthy (selectedAuthor st)
     then bool_decide (author b = selectedAuthor st) else true) &&
    (if truthy (selectedCategory st)
     then bool_decide (category b = Some (selectedCategory st)) else true) &&
    (if showFavoritesOnly st then isFavorite favorites b else true).
Proof. intros E. unfold passes. by rewrite E. Qed.

Lemma filteredBooks_no_filter (books : list Book) (favorites : list string) :
  filteredBooks books favorites no_filter = books.
Proof.
  rewrite filteredBooks_passes. transitivity (List.filter (fun _ => true) books).
  - apply filter_ext_eq. intros b.
    rewrite passes_no_search by apply trim_empty. reflexivity.
  - apply filter_all.
Qed.

(** After [clearAllFilters] the whole catalog is shown, whatever the filter
    was and whatever the favorites are. *)
Theorem clearAllFilters_shows_catalog (books : list Book) (favorites : list string)
  (st : FilterState) :
  filteredBooks books favorites (clearAllFilters st) = books.
Proof. apply filteredBooks_no_filter. Qed.

(** The number on the favorites button is the number of books shown when the
    favorites filter is switched on alone; switching it off again shows the
    catalog. *)
Theorem favoriteCount_is_favorites_view (books : list Book) (favorites : list string) :
  favoriteCount books favorites
  = length (filteredBooks books favorites (toggleFavoritesFilter no_filter)) /\
  filteredBooks books favorites (toggleFavoritesFilter (toggleFavoritesFilter no_filter))
  = books.
Proof.
  split.
  - unfold favoriteCount. f_equal. rewrite filteredBooks_passes.
    apply filter_ext_eq. intros b.
    rewrite passes_no_search by apply trim_empty. reflexivity.
  - apply filteredBooks_no_filter.
Qed.

End FacetsFacts.

Section SelectorFacts.
Context `{JSRuntime} `{JSStringOrder}.
Import Filter Facets.

(** The author selector offers every author of the catalog exactly once,
    in ascending order of the UTF-16 code units, which is the one ascending
    arrangement of the distinct authors; choosing a non-empty one alone
    shows exactly the books of that author, and at least one book. *)
Theorem authors_options (books : list Book) (favorites : list string) :
  StronglySorted code_unit_le (authors books) /\
  (forall l, l ≡ₚ unique (author <$> books) -> StronglySorted code_unit_le l ->
             l = authors books) /\
  NoDup (authors books) /\
  (forall a, a ∈ authors books <-> exists b, b ∈ books /\ author b = a) /\
  (forall a, a ∈ authors books -> a <> "" ->
     filteredBooks books favorites (only_author a) <> [] /\
     forall b, b ∈ filteredBooks books favorites (only_author a)
               <-> b ∈ books /\ author b = a).
Proof.
  assert (forall a, a ∈ authors books <-> exists b, b ∈ books /\ author b = a) as Hmem.
  { intros a. unfold authors. rewrite sort_elem_of, unique_elem_of, list_elem_of_fmap.
    split; intros (b & ? & ?); exists b; done. }
  split; [apply sort_sorted|].
  split; [intros l; apply sort_unique|].
  split; [apply sort_NoDup, unique_NoDup|].
  split; [done|].
  intros a Hin Hne.
  assert (forall b, b ∈ filteredBooks books favorites (only_author a)
                    <-> b ∈ books /\ author b = a) as Hres.
  { intros b. rewrite filteredBooks_passes, elem_of_filter_bool.
    rewrite passes_no_search by apply trim_empty. cbn.
    apply truthy_true in Hne. rewrite Hne, !andb_true_r, bool_decide_eq_true. done. }
  split; [|done].
  apply Hmem in Hin as (b & Hb & Ha). intros Hnil.
  assert (b ∈ filteredBooks books favorites (only_author a)) as Hb' by by apply Hres.
  rewrite Hnil in Hb'. by apply elem_of_nil in Hb'.
Qed.

(** The category selector offers every non-empty category of the
    catalog exactly once, in ascending order of the UTF-16 code units, and
    never the empty string; choosing one alone shows exactly the books of
    that category, and at least one. *)
Theorem categories_options (books : list Book) (favorites : list string) :
  StronglySorted code_unit_le (categories books) /\
  (forall l, l ≡ₚ unique (truthy_categories books) -> StronglySorted code_unit_le l ->
             l = categories books) /\
  NoDup (categories books) /\
  (forall c, c ∈ categories books <->
             c <> "" /\ exists b, b ∈ books /\ category b = Some c) /\
  (forall c, c ∈ categories books ->
     filteredBooks books favorites (only_category c) <> [] /\
     forall b, b ∈ filteredBooks books favorites (only_category c)
               <-> b ∈ books /\ category b = Some c).
Proof.
  assert (forall c, c ∈ categories books <->
             c <> "" /\ exists b, b ∈ books /\ category b = Some c) as Hmem.
  { intros c. unfold categories.
    by rewrite sort_elem_of, unique_elem_of, truthy_categories_elem_of. }
  split; [apply sort_sorted|].
  split; [intros l; apply sort_unique|].
  split; [apply sort_NoDup, unique_NoDup|].
  split; [done|].
  intros c Hin. apply Hmem in Hin as (Hne & b0 & Hb0 & Hc0).
  assert (forall b, b ∈ filteredBooks books favorites (only_category c)
                    <-> b ∈ books /\ category b = Some c) as Hres.
  { intros b. rewrite filteredBooks_passes, elem_of_filter_bool.
    rewrite passes_no_search by apply trim_empty. cbn.
    apply truthy_true in Hne. rewrite Hne, !andb_true_r, bool_decide_eq_true. done. }
  split; [|done]. intros Hnil.
  assert (b0 ∈ filteredBooks books favorites (only_category c)) as Hb' by by apply Hres.
  rewrite Hnil in Hb'. by apply elem_of_nil in Hb'.
Qed.

End SelectorFacts.

(** Three books by three authors, listed out of order, and the options the
    two selectors offer for them. *)
Lemma authors_options_witness :
  Facets.authors [bookY; bookX2; bookX; bookX_reissue] = ["A"; "B"; "D"] /\
  StronglySorted code_unit_le (Facets.authors [bookY; bookX2; bookX; bookX_reissue]).
Proof.
  split; [vm_compute; reflexivity|].
  apply (authors_options [bookY; bookX2; bookX; bookX_reissue] []).
Defined.

Lemma categories_options_witness :
  Facets.categories [bookY; bookX2; bookX; bookX_reissue]
  = ["Classics"; "Fiction"; "Poetry"] /\
  StronglySorted code_unit_le (Facets.categories [bookY; bookX2; bookX; bookX_reissue]).
Proof.
  split; [vm_compute; reflexivity|].
  apply (categories_options [bookY; bookX2; bookX; bookX_reissue] []).
Defined.

(** ** How the filter composes *)

Lemma filter_length_split {A} (f g h : A -> bool) (l : list A) :
  (forall x, f x = g x || h x) -> (forall x, g x && h x = false) ->
  length (List.filter f l) = length (List.filter g l) + length (List.filter h l).
Proof.
  intros Hor Hdis. induction l as [|x l IH]; simpl; [done|].
  rewrite (Hor x). specialize (Hdis x).
  destruct (g x), (h x); simpl in *; try done; lia.
Qed.

Section FilterComposition.
Context `{JSRuntime}.
Import Filter.

(** A search text that is blank after trimming filters nothing: the result
    is the one for the empty search text. *)
Theorem blank_search_is_no_search (books : list Book) (favorites : list string)
  (st : FilterState) :
  trim (searchQuery st) = "" ->
  filteredBooks books favorites st = filteredBooks books favorites (without_search st).
Proof.
  intros Hblank. rewrite !filteredBooks_passes. apply filter_ext_eq. intros b.
  unfold passes. cbn. by rewrite Hblank, trim_empty.
Qed.

(** Filtering a filtered list again changes nothing, and two filter states
    can be applied in either order. *)
Theorem filteredBooks_refilter (books : list Book) (favorites : list string)
  (st1 st2 : FilterState) :
  filteredBooks (filteredBooks books favorites st1) favorites st1
  = filteredBooks books favorites st1 /\
  filteredBooks (filteredBooks books favorites st1) favorites st2
  = filteredBooks (filteredBooks books favorites st2) favorites st1.
Proof.
  rewrite !filteredBooks_passes, !filter_filter. split; apply filter_ext_eq; intros b.
  - by destruct (passes favorites st1 b).
  - apply andb_comm.
Qed.

End FilterComposition.

Lemma blank_search_is_no_search_witness :
  let st := {| Filter.searchQuery := "   "; Filter.selectedAuthor := "A";
               Filter.selectedCategory := ""; Filter.showFavoritesOnly := false |} in
  Filter.filteredBooks [bookX; bookY] [] st
  = Filter.filteredBooks [bookX; bookY] [] (without_search st).
Proof.
  intros st. apply (blank_search_is_no_search [bookX; bookY] [] st). reflexivity.
Defined.

(** ** Composite keys *)

Lemma includes_cons_false (c : ascii) (s q : string) :
  includes (String c s) q = false -> includes s q = false.
Proof. cbn [includes]. intros Hor. by apply orb_false_iff in Hor as [_ ?]. Qed.

Lemma includes_bar_head (s : string) : includes (String "|" s) "|" = true.
Proof. destruct s; reflexivity. Qed.

(** Two strings without a bar, each followed by a bar and a rest, are equal
    only if the parts are equal. *)
Lemma bar_split_inj (a1 a2 f1 f2 : string) :
  includes a1 "|" = false -> includes a2 "|" = false ->
  a1 +:+ "|" +:+ f1 = a2 +:+ "|" +:+ f2 -> a1 = a2 /\ f1 = f2.
Proof.
  revert a2. induction a1 as [|c a1 IH]; intros [|d a2] H1 H2 Heq.
  - by injection Heq.
  - injection Heq as <- _. by rewrite includes_bar_head in H2.
  - injection Heq as -> _. by rewrite includes_bar_head in H1.
  - injection Heq as -> Heq.
    destruct (IH a2 (includes_cons_false _ _ _ H1) (includes_cons_false _ _ _ H2) Heq)
      as [-> ->]. done.
Qed.

(** As long as author names contain no bar, the composite key identifies the
    pair (author, name): two books with the same key have the same author
    and the same name, and so have two image cache keys. *)
Theorem composite_key_injective (b1 b2 : Book) :
  includes (author b1) "|" = false -> includes (author b2) "|" = false ->
  Filter.getFavoriteKey b1 = Filter.getFavoriteKey b2 \/
  ImageCache.getCacheKey (author b1) (name b1) = ImageCache.getCacheKey (author b2) (name b2) ->
  author b1 = author b2 /\ name b1 = name b2.
Proof. intros H1 H2 [Heq|Heq]; by apply bar_split_inj. Qed.

(** Two different entries of a catalog that carry one key. *)
Lemma composite_key_injective_witness :
  bookX <> bookX_reissue /\
  Filter.getFavoriteKey bookX = Filter.getFavoriteKey bookX_reissue /\
  author bookX = author bookX_reissue /\ name bookX = name bookX_reissue.
Proof.
  split; [discriminate|]. split; [reflexivity|].
  apply (composite_key_injective bookX bookX_reissue); [reflexivity | reflexivity |].
  left. reflexivity.
Defined.

(** With a bar in an author name two different books can share one key. *)
Example composite_key_collision :
  let b1 := {| name := "c"; author := "a|b"; category := None;
               isCoverImg := false; size_in_bytes := None |} in
  let b2 := {| name := "b|c"; author := "a"; category := None;
               isCoverImg := false; size_in_bytes := None |} in
  Filter.getFavoriteKey b1 = Filter.getFavoriteKey b2 /\ author b1 <> author b2.
Proof. split; [reflexivity | discriminate]. Qed.

(** ** Favorites and the filter together *)

Section FavoritesAndFilter.
Context `{JSRuntime}.
Import Favorites.

Lemma isFavorite_same_key (arr : list string) (b book : Book) :
  Filter.getFavoriteKey b = Filter.getFavoriteKey book ->
  Filter.isFavorite arr b = Filter.isFavorite arr book.
Proof. unfold Filter.isFavorite. by intros ->. Qed.

Lemma toggled_isFavorite (arr : list string) (book b : Book) :
  NoDup arr ->
  Filter.isFavorite (toggled arr (Filter.getFavoriteKey book)) b
  = if bool_decide (Filter.getFavoriteKey b = Filter.getFavoriteKey book)
    then negb (Filter.isFavorite arr book) else Filter.isFavorite arr b.
Proof.
  intros Hnd. case_bool_decide as Hk.
  - rewrite <- (isFavorite_same_key arr b book Hk).
    unfold Filter.isFavorite, arr_includes. rewrite Hk.
    pose proof (toggled_flips arr (Filter.getFavoriteKey book) Hnd) as Hflip.
    destruct (decide (Filter.getFavoriteKey book ∈ arr)) as [Hin|Hout].
    + rewrite (bool_decide_eq_true_2 _ Hin). apply bool_decide_eq_false_2. tauto.
    + rewrite (bool_decide_eq_false_2 _ Hout). apply bool_decide_eq_true_2. tauto.
  - unfold Filter.isFavorite, arr_includes. apply bool_decide_ext.
    by apply toggled_other.
Qed.

(** A toggle is seen at once by the badge and by the favorites view: on an
    array without duplicates, marking a book raises the favorite count by the
    number of catalog books that carry its key and puts the book into the
    favorites view; unmarking lowers the count by that number and takes the
    book out of the view. *)
Theorem toggleFavorite_updates_view (books : list Book) (book : Book) (s : State) :
  NoDup (favorites s) ->
  book ∈ books ->
  let s1 := exec (toggleFavorite book) s in
  let view := Filter.filteredBooks books (favorites s1)
                (Facets.toggleFavoritesFilter Filter.no_filter) in
  if isFavorite s book
  then Filter.favoriteCount books (favorites s1)
         + books_with_key books (getFavoriteKey book)
       = Filter.favoriteCount books (favorites s) /\ book ∉ view
  else Filter.favoriteCount books (favorites s1)
       = Filter.favoriteCount books (favorites s)
         + books_with_key books (getFavoriteKey book) /\ book ∈ view.
Proof.
  intros Hnd Hin s1 view. subst view s1. unfold exec.
  rewrite toggleFavorite_run. cbn [snd favorites].
  change (getFavoriteKey book) with (Filter.getFavoriteKey book).
  change (isFavorite s book) with (Filter.isFavorite (favorites s) book).
  set (arr := favorites s) in *.
  assert (forall b, b ∈ Filter.filteredBooks books
                          (toggled arr (Filter.getFavoriteKey book))
                          (Facets.toggleFavoritesFilter Filter.no_filter)
                    <-> b ∈ books /\
                        Filter.isFavorite (toggled arr (Filter.getFavoriteKey book)) b
                        = true) as Hview.
  { intros b. rewrite filteredBooks_passes, elem_of_filter_bool.
    by rewrite passes_no_search by apply trim_empty. }
  pose proof (toggled_isFavorite arr book book Hnd) as Hself.
  rewrite bool_decide_eq_true_2 in Hself by done.
  unfold Filter.favoriteCount, books_with_key.
  destruct (Filter.isFavorite arr book) eqn:Efav; split.
  - symmetry. apply filter_length_split; intros b; cbv beta;
      rewrite (toggled_isFavorite arr book b Hnd), Efav; case_bool_decide as Hk; cbn.
    + by rewrite (isFavorite_same_key arr b book Hk).
    + by rewrite orb_false_r.
    + done.
    + by rewrite andb_false_r.
  - rewrite Hview, Hself. cbn. by intros [_ ?].
  - apply filter_length_split; intros b; cbv beta;
      rewrite ?(toggled_isFavorite arr book b Hnd), ?Efav; case_bool_decide as Hk; cbn.
    + by rewrite (isFavorite_same_key arr b book Hk), Efav.
    + by rewrite orb_false_r.
    + by rewrite (isFavorite_same_key arr b book Hk), Efav.
    + by rewrite andb_false_r.
  - rewrite Hview, Hself. done.
Qed.

End FavoritesAndFilter.

Lemma toggleFavorite_updates_view_witness :
  let s := {| Favorites.favorites := ["B|Y"]; Favorites.localStorage := roomy_storage |} in
  let s1 := exec (Favorites.toggleFavorite bookX) s in
  Filter.favoriteCount [bookX; bookY] (Favorites.favorites s1)
  = Filter.favoriteCount [bookX; bookY] (Favorites.favorites s)
    + books_with_key [bookX; bookY] (Favorites.getFavoriteKey bookX).
Proof.
  intros s s1.
  assert (NoDup (Favorites.favorites s)) as Hnd by apply NoDup_singleton.
  assert (bookX ∈ [bookX; bookY]) as Hin by left.
  exact (proj1 (toggleFavorite_updates_view [bookX; bookY] bookX s Hnd Hin)).
Defined.

(** ** Loading the favorites *)

Section FavoritesLoadFacts.
Context `{JSRuntime}.
Variable JSON_parse : string -> option (list string).
Import Favorites FavoritesLoad.

Lemma loadFavorites_run (s : State) :
  loadFavorites JSON_parse s =
  (Normal tt,
   {| favorites :=
        match getItem (localStorage s) "epub-favorites" with
        | Some text =>
          if truthy text
          then match JSON_parse text with Some arr => arr | None => [] end
          else favorites s
        | None => favorites s
        end;
      localStorage := localStorage s |}).
Proof.
  unfold loadFavorites, try_catch, bind, gets, modify, ret, throw, set_favorites.
  destruct s as [favs st]. cbn.
  destruct (getItem st "epub-favorites") as [text|]; [|done].
  destruct (truthy text); [|done]. by destruct (JSON_parse text).
Qed.

(** What a toggle has written is what the next page load reads: if the write
    of a toggle succeeds, and [JSON.parse] reads back the non-empty text that
    [JSON.stringify] produced for the array, then [loadFavorites], run on
    that storage from any in-memory array, yields the array as the toggle
    left it. *)
Theorem toggle_then_reload (book : Book) (s : State) (stale : list string) :
  let s1 := exec (toggleFavorite book) s in
  is_Some (setItem (localStorage s) "epub-favorites" (JSON_stringify (favorites s1))) ->
  JSON_stringify (favorites s1) <> "" ->
  JSON_parse (JSON_stringify (favorites s1)) = Some (favorites s1) ->
  let reloaded := exec (loadFavorites JSON_parse)
                    {| favorites := stale; localStorage := localStorage s1 |} in
  favorites reloaded = favorites s1 /\ localStorage reloaded = localStorage s1.
Proof.
  intros s1 [st Hset] Htext Hparse reloaded. subst reloaded. unfold exec.
  rewrite loadFavorites_run. cbn [snd favorites localStorage]. split; [|done].
  assert (getItem (localStorage s1) "epub-favorites"
          = Some (JSON_stringify (favorites s1))) as ->.
  { subst s1. unfold exec in *. rewrite toggleFavorite_run in *.
    cbn [snd favorites localStorage] in *. rewrite Hset.
    by apply setItem_getItem in Hset. }
  apply truthy_true in Htext. by rewrite Htext, Hparse.
Qed.

(** Corrupt stored data does not stop the page and does not survive the
    first toggle: when the stored text does not parse, [loadFavorites]
    completes normally with an empty array and leaves storage alone; the next
    toggle then holds exactly the toggled key and, if its write succeeds,
    replaces the corrupt text by the serialisation of that array. *)
Theorem corrupt_favorites_are_replaced (text : string) (book : Book) (s : State) :
  getItem (localStorage s) "epub-favorites" = Some text ->
  text <> "" ->
  JSON_parse text = None ->
  let s1 := exec (loadFavorites JSON_parse) s in
  let s2 := exec (toggleFavorite book) s1 in
  result (loadFavorites JSON_parse) s = Normal tt /\
  favorites s1 = [] /\ localStorage s1 = localStorage s /\
  favorites s2 = [getFavoriteKey book] /\
  (is_Some (setItem (localStorage s) "epub-favorites"
              (JSON_stringify [getFavoriteKey book])) -> persisted s2).
Proof.
  intros Hget Htext Hparse s1 s2. subst s2 s1. unfold exec, result.
  rewrite loadFavorites_run, Hget. apply truthy_true in Htext.
  rewrite Htext, Hparse. cbn [fst snd]. rewrite toggleFavorite_run.
  cbn [fst snd favorites localStorage]. repeat split.
  intros [st Hset]. unfold persisted. cbn [favorites localStorage].
  change (toggled [] (getFavoriteKey book)) with [getFavoriteKey book].
  rewrite Hset. by apply setItem_getItem in Hset.
Qed.

End FavoritesLoadFacts.

Lemma toggle_then_reload_witness :
  let s := {| Favorites.favorites := ["B|Y"]; Favorites.localStorage := roomy_storage |} in
  let s1 := exec (Favorites.toggleFavorite bookX) s in
  let reloaded := exec (FavoritesLoad.loadFavorites Ascii_json.parse)
                    {| Favorites.favorites := [];
                       Favorites.localStorage := Favorites.localStorage s1 |} in
  Favorites.favorites reloaded = Favorites.favorites s1 /\
  Favorites.localStorage reloaded = Favorites.localStorage s1.
Proof.
  intros s s1.
  apply (toggle_then_reload Ascii_json.parse bookX s []).
  - vm_compute. eexists. reflexivity.
  - vm_compute. discriminate.
  - vm_compute. reflexivity.
Defined.

Lemma corrupt_favorites_are_replaced_witness :
  let s := {| Favorites.favorites := [];
              Favorites.localStorage :=
                {| items := {[ "epub-favorites" := "oops" ]}; quota := 1024 |} |} in
  Favorites.favorites
    (exec (Favorites.toggleFavorite bookX)
       (exec (FavoritesLoad.loadFavorites Ascii_json.parse) s)) = ["A|X"].
Proof.
  intros s.
  destruct (corrupt_favorites_are_replaced Ascii_json.parse "oops" bookX s)
    as (_ & _ & _ & Hfav & _); [reflexivity | discriminate | reflexivity |].
  exact Hfav.
Defined.

(** The parser reads back what the serialiser writes, escapes included. *)
Example parse_stringify :
  Ascii_json.parse (Ascii_runtime.stringify ["A|X"; "say \hi"; ""])
  = Some ["A|X"; "say \hi"; ""] /\
  Ascii_json.parse (Ascii_runtime.stringify []) = Some [] /\
  Ascii_json.parse "oops" = None.
Proof. repeat split. Qed.

(** ** Image cache: sessions and the preload pass *)

Lemma flagKey_not_favorites (k : string) : ImageCache.flagKey k <> "epub-favorites".
Proof. unfold ImageCache.flagKey. intros Heq. discriminate Heq. Qed.

Section SessionFacts.
Context `{JSRuntime}.
Variable net : nat -> string -> ImageCache.FetchOutcome.
Import ImageCache.

(** One call touches its own key only.  Handles that exist stay as they
    are; the flags of other keys and the saved favorites are not written. *)
Lemma cacheImage_frame (author filename : string) (s : State) :
  let s' := exec (cacheImage net author filename) s in
  (forall k v, cachedImageUrls s !! k = Some v -> cachedImageUrls s' !! k = Some v) /\
  (forall k, k <> getCacheKey author filename ->
     cachedImageUrls s' !! k = cachedImageUrls s !! k /\
     getItem (localStorage s') (flagKey k) = getItem (localStorage s) (flagKey k)) /\
  getItem (localStorage s') "epub-favorites" = getItem (localStorage s) "epub-favorites".
Proof.
  cbv zeta.
  destruct (decide (is_Some (cachedImageUrls s !! getCacheKey author filename)))
    as [Hhit|Hmiss].
  { unfold exec. rewrite cacheImage_hit by done. done. }
  assert (cachedImageUrls s !! getCacheKey author filename = None) as Hnone.
  { destruct (cachedImageUrls s !! getCacheKey author filename) eqn:E; [|done].
    destruct Hmiss. by eexists. }
  destruct (cacheImage_effect net author filename s)
    as (log & _ & _ & [(-> & -> & _) | (n & _ & _ & -> & _ & Hst)]); [done|].
  assert (forall key, key <> flagKey (getCacheKey author filename) ->
            getItem (localStorage (exec (cacheImage net author filename) s)) key
            = getItem (localStorage s) key) as Hother.
  { intros key Hkey. destruct Hst as [-> | Hset]; [done|].
    unfold getItem. rewrite (setItem_items _ _ _ _ Hset).
    by rewrite lookup_insert_ne. }
  split; [|split].
  - intros k v Hk. rewrite lookup_insert_ne; [done|]. congruence.
  - intros k Hk. split; [by rewrite lookup_insert_ne|].
    apply Hother. intros Heq. by apply flagKey_inj in Heq.
  - apply Hother. apply not_eq_sym, flagKey_not_favorites.
Qed.

(** A miss whose first fetch succeeds stores a handle after that one
    request. *)
Lemma cacheImage_miss_ok (author filename : string) (s : State) :
  cachedImageUrls s !! getCacheKey author filename = None ->
  succeeded (net (length (requests s)) (imgUrl author filename)) = true ->
  let s' := exec (cacheImage net author filename) s in
  is_Some (cachedImageUrls s' !! getCacheKey author filename) /\
  requests s' = requests s ++ [imgUrl author filename].
Proof.
  intros Hmiss Hok. cbv zeta. revert Hok.
  unfold cacheImage, isImageCached, markImageAsCached, fetch, createObjectURL,
    localStorage_setItem, try_catch, bind, gets, modify, ret, throw, exec,
    log_request, next_blob, set_cachedImageUrls, set_localStorage. cbn.
  rewrite bool_decide_eq_false_2 by (rewrite Hmiss; by intros [? ?]).
  destruct (bool_decide (getItem (localStorage s)
              (flagKey (getCacheKey author filename)) = Some "true")); cbn;
    destruct (net (length (requests s)) (imgUrl author filename)) as [|[] body];
    cbn; try done;
    try destruct (setItem (localStorage s) (flagKey (getCacheKey author filename)) "true");
    cbn; intros _; rewrite lookup_insert_eq; eauto.
Qed.

(** Over a session: the log grows by requests for images of the calls, at
    most two per call. *)
Lemma session_log (calls : list (string * string)) (s : State) :
  exists log,
    requests (session net calls s) = requests s ++ log /\
    length log <= 2 * length calls /\
    Forall (fun url => exists c, c ∈ calls /\ url = imgUrl c.1 c.2) log.
Proof.
  revert s. induction calls as [|[a f] calls IH]; intros s.
  - exists []. cbn. rewrite app_nil_r. repeat split; [lia | constructor].
  - rewrite session_cons.
    destruct (cacheImage_effect net a f s) as (log1 & Hlog1 & [Hurl1 Hlen1] & _).
    destruct (IH (exec (cacheImage net a f) s)) as (log2 & Hlog2 & Hlen2 & Hurl2).
    exists (log1 ++ log2). rewrite Hlog2, Hlog1, app_assoc, length_app. cbn [length].
    repeat split; [lia|]. apply Forall_app. split.
    + eapply Forall_impl; [exact Hurl1|]. intros url <-. exists (a, f).
      split; [left | done].
    + eapply Forall_impl; [exact Hurl2|]. intros url (c & Hc & ->). exists c.
      split; [by right | done].
Qed.

Lemma session_frame (calls : list (string * string)) (s : State) :
  (forall k v, cachedImageUrls s !! k = Some v ->
               cachedImageUrls (session net calls s) !! k = Some v) /\
  (forall k, (forall c, c ∈ calls -> getCacheKey c.1 c.2 <> k) ->
     cachedImageUrls (session net calls s) !! k = cachedImageUrls s !! k /\
     getItem (localStorage (session net calls s)) (flagKey k)
     = getItem (localStorage s) (flagKey k)) /\
  getItem (localStorage (session net calls s)) "epub-favorites"
  = getItem (localStorage s) "epub-favorites".
Proof.
  revert s. induction calls as [|[a f] calls IH]; intros s; [done|].
  rewrite session_cons.
  destruct (cacheImage_frame a f s) as (Hkeep1 & Hother1 & Hfav1).
  destruct (IH (exec (cacheImage net a f) s)) as (Hkeep2 & Hother2 & Hfav2).
  split; [|split].
  - intros k v Hk. by apply Hkeep2, Hkeep1.
  - intros k Hk.
    destruct (Hother2 k) as [-> ->]; [intros c Hc; apply Hk; by right|].
    apply Hother1. apply not_eq_sym, (Hk (a, f)). left.
  - by rewrite Hfav2.
Qed.

(** A session all of whose calls already have a handle changes nothing. *)
Lemma session_all_hits (calls : list (string * string)) (s : State) :
  (forall c, c ∈ calls -> is_Some (cachedImageUrls s !! getCacheKey c.1 c.2)) ->
  session net calls s = s.
Proof.
  induction calls as [|[a f] calls IH]; intros Hhit; [done|].
  rewrite session_cons. unfold exec.
  rewrite cacheImage_hit by (apply (Hhit (a, f)); left). cbn [snd].
  apply IH. intros c Hc. apply Hhit. by right.
Qed.

(** On a network that serves the images of all its calls, a session leaves a
    handle for every call and makes at most one request per call. *)
Lemma session_served (calls : list (string * string)) (s : State) :
  (forall n c, c ∈ calls -> succeeded (net n (imgUrl c.1 c.2)) = true) ->
  (forall c, c ∈ calls ->
     is_Some (cachedImageUrls (session net calls s) !! getCacheKey c.1 c.2)) /\
  length (requests (session net calls s)) <= length (requests s) + length calls.
Proof.
  revert s. induction calls as [|[a f] calls IH]; intros s Hnet.
  - split; [by intros c ?%elem_of_nil | cbn; lia].
  - rewrite session_cons.
    destruct (IH (exec (cacheImage net a f) s)) as (Hall & Hlen);
      [intros n c Hc; apply Hnet; by right|].
    assert (is_Some (cachedImageUrls (exec (cacheImage net a f) s) !! getCacheKey a f) /\
            length (requests (exec (cacheImage net a f) s)) <= S (length (requests s)))
      as (Hone & Hlen1).
    { destruct (cachedImageUrls s !! getCacheKey a f) as [v|] eqn:E.
      - unfold exec. rewrite cacheImage_hit by (rewrite E; by eexists). cbn [snd].
        rewrite E. split; [by eexists | lia].
      - destruct (cacheImage_miss_ok a f s E) as (Hsome & Hreq).
        { apply (Hnet _ (a, f)). left. }
        split; [done|]. rewrite Hreq, length_app. cbn. lia. }
    split.
    + intros c [-> | Hc]%elem_of_cons; [|by apply Hall].
      destruct Hone as [v Hv].
      destruct (session_frame calls (exec (cacheImage net a f) s)) as (Hkeep & _).
      exists v. by apply Hkeep.
    + cbn [length]. lia.
Qed.

End SessionFacts.
Section PreloadFacts.
Context `{JSRuntime}.
Variable net : nat -> string -> ImageCache.FetchOutcome.
Import ImageCache Preload.

(** The pass is the session of the calls for the covers among the first
    twenty books, and it completes normally. *)
Lemma preloadVisibleImages_session (filteredBooks : list Book) (s : State) :
  preloadVisibleImages net filteredBooks s
  = (Normal tt, session net (covers filteredBooks) s).
Proof.
  unfold preloadVisibleImages, covers. generalize (take 20 filteredBooks) as l.
  intros l. revert s. induction l as [|b l IH]; intros s; [done|].
  cbn [for_of List.filter]. destruct (isCoverImg b); cbn [fmap list_fmap].
  - rewrite session_cons. unfold bind at 1, try_catch, bind at 1.
    destruct (cacheImage_never_throws net (author b) (name b) s) as [v Hv].
    unfold result, exec in *.
    destruct (cacheImage net (author b) (name b) s) as [[v'|e] s1]; [|done].
    cbn. apply IH.
  - unfold bind at 1, ret. apply IH.
Qed.

Lemma covers_elem_of (filteredBooks : list Book) (c : string * string) :
  c ∈ covers filteredBooks <->
  exists b, b ∈ take 20 filteredBooks /\ isCoverImg b = true /\ c = (author b, name b).
Proof.
  unfold covers. rewrite list_elem_of_fmap. split.
  - intros (b & -> & Hb). apply elem_of_filter_bool in Hb as [? ?]. by exists b.
  - intros (b & Hb & Hcover & ->). exists b. split; [done|].
    by apply elem_of_filter_bool.
Qed.

Lemma covers_length (filteredBooks : list Book) : length (covers filteredBooks) <= 20.
Proof.
  unfold covers. rewrite length_fmap.
  etrans; [apply List.filter_length_le|]. rewrite length_take. lia.
Qed.

(** The preload pass never throws and asks only for covers of the first
    twenty books of the filtered view that declare a cover: every request it
    adds is for the image of such a book, and it adds at most forty.  It
    keeps every handle that exists and does not write the saved favorites. *)
Theorem preloadVisibleImages_bounded (filteredBooks : list Book) (s : State) :
  let s' := exec (preloadVisibleImages net filteredBooks) s in
  result (preloadVisibleImages net filteredBooks) s = Normal tt /\
  (exists log,
     requests s' = requests s ++ log /\ length log <= 40 /\
     Forall (fun url => exists b, b ∈ take 20 filteredBooks /\ isCoverImg b = true /\
                                  url = imgUrl (author b) (name b)) log) /\
  (forall k v, cachedImageUrls s !! k = Some v -> cachedImageUrls s' !! k = Some v) /\
  getItem (localStorage s') "epub-favorites" = getItem (localStorage s) "epub-favorites".
Proof.
  cbv zeta. unfold exec, result. rewrite preloadVisibleImages_session. cbn [fst snd].
  split; [done|].
  destruct (session_log net (covers filteredBooks) s) as (log & Hlog & Hlen & Hurls).
  destruct (session_frame net (covers filteredBooks) s) as (Hkeep & _ & Hfav).
  split; [|done]. exists log. split; [done|]. split.
  - pose proof (covers_length filteredBooks). lia.
  - eapply Forall_impl; [exact Hurls|]. intros url (c & Hc & ->).
    apply covers_elem_of in Hc as (b & Hb & Hcover & ->). by exists b.
Qed.

(** When the network serves the covers of the first twenty books, one pass
    leaves a blob handle for each of them with at most twenty requests, and
    a second pass over the same view changes nothing and fetches nothing. *)
Theorem preloadVisibleImages_served (filteredBooks : list Book) (s : State) :
  (forall n b, b ∈ take 20 filteredBooks -> isCoverImg b = true ->
               succeeded (net n (imgUrl (author b) (name b))) = true) ->
  let s' := exec (preloadVisibleImages net filteredBooks) s in
  (forall b, b ∈ take 20 filteredBooks -> isCoverImg b = true ->
             is_Some (cachedImageUrls s' !! getCacheKey (author b) (name b))) /\
  length (requests s') <= length (requests s) + 20 /\
  exec (preloadVisibleImages net filteredBooks) s' = s'.
Proof.
  intros Hnet. cbv zeta. unfold exec. rewrite !preloadVisibleImages_session.
  cbn [snd].
  destruct (session_served net (covers filteredBooks) s) as (Hall & Hlen).
  { intros n c (b & Hb & Hcover & ->)%covers_elem_of. by apply Hnet. }
  split; [|split].
  - intros b Hb Hcover. apply (Hall (author b, name b)), covers_elem_of. by exists b.
  - pose proof (covers_length filteredBooks). lia.
  - by apply session_all_hits.
Qed.

(** Calls for different keys do not interfere: over any session, handles
    that exist are kept as they are, a key that no call asks for gets neither
    a handle nor a flag, and the saved favorites are not written. *)
Theorem image_cache_session_isolated (calls : list (string * string)) (s : State) :
  let s' := session net calls s in
  (forall k v, cachedImageUrls s !! k = Some v -> cachedImageUrls s' !! k = Some v) /\
  (forall k, (forall c, c ∈ calls -> getCacheKey c.1 c.2 <> k) ->
     cachedImageUrls s' !! k = cachedImageUrls s !! k /\
     getItem (localStorage s') (flagKey k) = getItem (localStorage s) (flagKey k)) /\
  getItem (localStorage s') "epub-favorites" = getItem (localStorage s) "epub-favorites".
Proof. apply session_frame. Qed.

End PreloadFacts.

Lemma preloadVisibleImages_served_witness :
  let s' := exec (Preload.preloadVisibleImages online [bookX; bookY]) fresh_cache in
  is_Some (ImageCache.cachedImageUrls s' !! ImageCache.getCacheKey "A" "X") /\
  exec (Preload.preloadVisibleImages online [bookX; bookY]) s' = s'.
Proof.
  intros s'.
  destruct (preloadVisibleImages_served online [bookX; bookY] fresh_cache)
    as (Hall & _ & Hagain).
  - intros n b _ _. reflexivity.
  - split; [|exact Hagain].
    apply (Hall bookX); [left | reflexivity].
Defined.

(** The pass on the two-book catalog with the network up: one request, for
    the one book that declares a cover. *)
Example preload_two_books :
  ImageCache.requests (exec (Preload.preloadVisibleImages online [bookX; bookY]) fresh_cache)
  = ["https://books.example/author/A/X.jpg"].
Proof. reflexivity. Qed.

(** ** Navigation: what each operation does to the state *)

Section NavigationExec.
Context `{JSRuntime}.
Variable engine : string -> bool.
Import Navigation.

Ltac nav_unfold :=
  unfold step, back, forward, traverse, handlePopState, openEpubReader,
    closeEpubReader, closeBookDetail, showBookDetails, pushState, replaceState_null,
    try_catch, bind, gets, modify, ret, throw, exec, result,
    set_selectedBook, set_showBookDetail, set_showEpubReader, set_currentBook,
    set_epubBook, set_rendition, set_keydown, set_history; cbn.

Lemma closeEpubReader_exec (skip : bool) (s : State) :
  closeEpubReader skip s =
  (Normal tt,
   {| books := books s; selectedBook := selectedBook s;
      showBookDetail := showBookDetail s; showEpubReader := false;
      currentBook := None; epubBook := None; rendition := None; keydown := false;
      entries :=
        if truthy (location_hash s)
        then <[cursor s := {| state := None; hash := "" |}]> (entries s)
        else entries s;
      cursor := cursor s |}).
Proof. nav_unfold. unfold location_hash. cbn. by destruct (truthy _). Qed.

Lemma closeBookDetail_exec (s : State) :
  closeBookDetail s =
  (Normal tt,
   {| books := books s; selectedBook := None;
      showBookDetail := false; showEpubReader := showEpubReader s;
      currentBook := currentBook s; epubBook := epubBook s;
      rendition := rendition s; keydown := keydown s;
      entries :=
        if truthy (location_hash s)
        then <[cursor s := {| state := None; hash := "" |}]> (entries s)
        else entries s;
      cursor := cursor s |}).
Proof. nav_unfold. unfold location_hash. cbn. by destruct (truthy _). Qed.

Lemma showBookDetails_exec (book : Book) (s : State) :
  showBookDetails book s =
  (Normal tt,
   {| books := books s; selectedBook := Some book;
      showBookDetail := true; showEpubReader := showEpubReader s;
      currentBook := currentBook s; epubBook := epubBook s;
      rendition := rendition s; keydown := keydown s;
      entries := take (S (cursor s)) (entries s)
                 ++ [ {| state := Some (BookDetail (name book));
                         hash := "#book-" +:+ encodeURIComponent (name book) |} ];
      cursor := S (cursor s) |}).
Proof. reflexivity. Qed.

(** With the cursor inside the history, the entry that [openEpubReader]
    pushes is the current one when the engine fails, so the handler's
    [closeEpubReader] erases it. *)
Lemma openEpubReader_exec (book : Book) (s : State) :
  cursor s < length (entries s) ->
  openEpubReader engine book s =
  (Normal tt,
   if engine (epubUrl book) then
     {| books := books s; selectedBook := selectedBook s;
        showBookDetail := false; showEpubReader := true;
        currentBook := Some book; epubBook := Some (epubUrl book);
        rendition := Some (epubUrl book); keydown := true;
        entries := take (S (cursor s)) (entries s)
                   ++ [ {| state := Some (EpubReader (name book));
                           hash := "#reading-" +:+ encodeURIComponent (name book) |} ];
        cursor := S (cursor s) |}
   else
     {| books := books s; selectedBook := selectedBook s;
        showBookDetail := false; showEpubReader := false;
        currentBook := None; epubBook := None; rendition := None; keydown := false;
        entries := take (S (cursor s)) (entries s)
                   ++ [ {| state := None; hash := "" |} ];
        cursor := S (cursor s) |}).
Proof.
  intros Hcur. nav_unfold. destruct (engine (epubUrl book)); cbn; [done|].
  unfold location_hash. cbn.
  rewrite lookup_app_r by (rewrite length_take; lia).
  rewrite length_take, Nat.min_l, Nat.sub_diag by lia. cbn.
  rewrite truthy_prefixed. cbn. do 2 f_equal.
  rewrite insert_app_r_alt by (rewrite length_take; lia).
  by rewrite length_take, Nat.min_l, Nat.sub_diag by lia.
Qed.

Lemma handlePopState_exec (event_state : option Tag) (s : State) :
  exec (handlePopState engine event_state) s =
  match event_state with
  | Some (EpubReader bookName) =>
    match findByName bookName s with
    | Some b => if showEpubReader s then s else exec (openEpubReader engine b) s
    | None => s
    end
  | Some (BookDetail bookName) =>
    let s1 := match findByName bookName s with
              | Some b => set_showBookDetail true (set_selectedBook (Some b) s)
              | None => s
              end in
    if showEpubReader s then exec (closeEpubReader true) s1 else s1
  | None =>
    let s1 := if showEpubReader s then exec (closeEpubReader true) s else s in
    if showBookDetail s
    then set_selectedBook None (set_showBookDetail false s1)
    else s1
  end.
Proof.
  destruct event_state as [[bookName|bookName]|];
    unfold handlePopState, exec, bind, gets, modify, ret; cbv beta iota zeta.
  - destruct (findByName bookName s) as [b|]; cbv beta iota;
      destruct (showEpubReader s) eqn:E; cbn [snd showEpubReader set_showBookDetail
        set_selectedBook]; rewrite ?E; reflexivity.
  - destruct (findByName bookName s) as [b|]; cbv beta iota;
      destruct (showEpubReader s) eqn:E; reflexivity.
  - destruct (showEpubReader s) eqn:E; cbv beta iota.
    + rewrite closeEpubReader_exec. cbv beta iota. cbn [showBookDetail snd].
      destruct (showBookDetail s); reflexivity.
    + destruct (showBookDetail s); reflexivity.
Qed.

Lemma back_exec (s : State) :
  exec (back engine) s =
  match cursor s with
  | 0 => s
  | S c =>
    exec (handlePopState engine (history_state (set_history (entries s) c s)))
      (set_history (entries s) c s)
  end.
Proof. unfold back, bind, gets, exec. cbn. by destruct (cursor s). Qed.

Lemma forward_exec (s : State) :
  exec (forward engine) s =
  if decide (S (cursor s) < length (entries s))
  then exec (handlePopState engine
               (history_state (set_history (entries s) (S (cursor s)) s)))
         (set_history (entries s) (S (cursor s)) s)
  else s.
Proof. unfold forward, bind, gets, exec. cbn. by case_decide. Qed.

End NavigationExec.
(** ** Navigation: invariants *)

Lemma find_Some_inv {A} (p : A -> bool) (l : list A) (x : A) :
  find p l = Some x -> x ∈ l /\ p x = true.
Proof.
  induction l as [|y l IH]; simpl; [done|]. destruct (p y) eqn:E.
  - intros [= <-]. split; [left | done].
  - intros Hf. destruct (IH Hf). split; [by right | done].
Qed.

Lemma find_is_Some {A} (p : A -> bool) (l : list A) (x : A) :
  x ∈ l -> p x = true -> is_Some (find p l).
Proof.
  induction l as [|y l IH]; intros Hin Hp; [by apply elem_of_nil in Hin|].
  simpl. destruct (p y) eqn:E; [by eexists|].
  apply elem_of_cons in Hin as [-> | Hin]; [congruence | by apply IH].
Qed.

Lemma elem_of_insert_inv {A} (l : list A) (i : nat) (x e : A) :
  e ∈ <[i:=x]> l -> e = x \/ e ∈ l.
Proof.
  revert i. induction l as [|y l IH]; intros [|i]; simpl; try by right.
  - intros [-> | ?]%elem_of_cons; [by left | right; by right].
  - intros [-> | He]%elem_of_cons; [right; left|].
    destruct (IH _ He); [by left | right; by right].
Qed.

Lemma elem_of_take_inv {A} (l : list A) (n : nat) (e : A) : e ∈ take n l -> e ∈ l.
Proof.
  intros (i & Hi & _)%elem_of_take. by eapply list_elem_of_lookup_2.
Qed.

Section NavigationInvFacts.
Context `{JSRuntime}.
Variable engine : string -> bool.
Import Navigation NavigationInv.

Lemma consistent_closeEpubReader (skip : bool) (s : State) :
  cursor s < length (entries s) ->
  (showBookDetail s = true -> is_Some (selectedBook s)) ->
  consistent (exec (closeEpubReader skip) s).
Proof.
  intros Hcur Hdetail. unfold exec. rewrite closeEpubReader_exec.
  unfold consistent, torn_down. cbn.
  split; [destruct (truthy _); by rewrite ?length_insert | done].
Qed.

Lemma consistent_openEpubReader (book : Book) (s : State) :
  cursor s < length (entries s) ->
  consistent (exec (openEpubReader engine book) s).
Proof.
  intros Hcur. unfold exec. rewrite openEpubReader_exec by done.
  unfold consistent, torn_down, session_up.
  destruct (engine (epubUrl book)); cbn;
    rewrite length_app, length_take, Nat.min_l by lia; cbn.
  - split; [lia|]. split; [by exists book | done].
  - split; [lia | done].
Qed.

Lemma consistent_handlePopState (event_state : option Tag) (s : State) :
  consistent s -> consistent (exec (handlePopState engine event_state) s).
Proof.
  intros Hs. pose proof Hs as (Hcur & Hreader & Hdetail).
  rewrite handlePopState_exec. destruct event_state as [[bookName|bookName]|].
  - cbv zeta. destruct (findByName bookName s) as [b|].
    + destruct (showEpubReader s) eqn:E.
      * by apply consistent_closeEpubReader; cbn; eauto.
      * unfold consistent. cbn. rewrite E. split; [done|]. split; [done | eauto].
    + destruct (showEpubReader s) eqn:E; [|done].
      by apply consistent_closeEpubReader.
  - destruct (findByName bookName s) as [b|]; [|done].
    destruct (showEpubReader s); [done|]. by apply consistent_openEpubReader.
  - cbv zeta. destruct (showEpubReader s) eqn:E.
    + pose proof (consistent_closeEpubReader true s Hcur Hdetail) as (? & ? & ?).
      destruct (showBookDetail s) eqn:Ed; [|done].
      unfold consistent, set_selectedBook, set_showBookDetail. cbn. done.
    + destruct (showBookDetail s) eqn:Ed; [|done].
      unfold consistent, set_selectedBook, set_showBookDetail. cbn.
      rewrite E. done.
Qed.

Lemma step_consistent (op : Op) (s : State) :
  consistent s -> consistent (exec (step engine op) s).
Proof.
  intros Hs. pose proof Hs as (Hcur & Hreader & Hdetail).
  destruct op as [b|b| | | |]; unfold step.
  - unfold exec. rewrite showBookDetails_exec. unfold consistent. cbn.
    rewrite length_app, length_take, Nat.min_l by lia. cbn.
    split; [lia|]. split; [done | eauto].
  - by apply consistent_openEpubReader.
  - unfold exec. rewrite closeBookDetail_exec. unfold consistent. cbn.
    split; [destruct (truthy _); by rewrite ?length_insert | done].
  - by apply consistent_closeEpubReader.
  - rewrite back_exec. destruct (cursor s) as [|c] eqn:Ec; [done|].
    apply consistent_handlePopState. unfold consistent, set_history. cbn.
    split; [lia | done].
  - rewrite forward_exec. case_decide; [|done].
    apply consistent_handlePopState. unfold consistent, set_history. cbn. done.
Qed.

Lemma step_books (op : Op) (s : State) : books (exec (step engine op) s) = books s.
Proof.
  assert (forall st s0, books (exec (handlePopState engine st) s0) = books s0) as Hpop.
  { intros st s0. rewrite handlePopState_exec.
    destruct st as [[bookName|bookName]|]; cbv zeta.
    - destruct (findByName bookName s0), (showEpubReader s0);
        unfold exec; rewrite ?closeEpubReader_exec; done.
    - destruct (findByName bookName s0) as [b|]; [|done].
      destruct (showEpubReader s0); [done|].
      unfold openEpubReader, closeEpubReader, try_catch, bind, modify, pushState,
        replaceState_null, gets, ret, throw, exec. cbn.
      destruct (engine (epubUrl b)); cbn; [done|]. by destruct (truthy _).
    - destruct (showEpubReader s0), (showBookDetail s0);
        unfold exec; rewrite ?closeEpubReader_exec; done. }
  destruct op as [b|b| | | |]; unfold step.
  - done.
  - unfold openEpubReader, closeEpubReader, try_catch, bind, modify, pushState,
      replaceState_null, gets, ret, throw, exec. cbn.
    destruct (engine (epubUrl b)); cbn; [done|]. by destruct (truthy _).
  - unfold exec. by rewrite closeBookDetail_exec.
  - unfold exec. by rewrite closeEpubReader_exec.
  - rewrite back_exec. destruct (cursor s); [done|]. by rewrite Hpop.
  - rewrite forward_exec. case_decide; [|done]. by rewrite Hpop.
Qed.

Lemma run_cons (op : Op) (ops : list Op) (s : State) :
  run engine (op :: ops) s = run engine ops (exec (step engine op) s).
Proof. reflexivity. Qed.

Lemma run_consistent_from (ops : list Op) (s : State) :
  consistent s -> consistent (run engine ops s) /\ books (run engine ops s) = books s.
Proof.
  revert s. induction ops as [|op ops IH]; intros s Hs; [done|].
  rewrite run_cons.
  destruct (IH (exec (step engine op) s)) as [? ->]; [by apply step_consistent|].
  by rewrite step_books.
Qed.

(** Whatever the user and the browser do, in any order, starting from the
    loaded page: the catalog is not touched; the cursor stays inside the
    history; whenever the reader is not shown there is no current book, no
    engine book, no rendition and no key listener left, and whenever it is
    shown they are all there for one and the same book; and the detail view
    is never shown without a selected book. *)
Theorem run_consistent (ops : list Op) (catalog : list Book) :
  let s := run engine ops (initial catalog) in
  books s = catalog /\
  cursor s < length (entries s) /\
  (if showEpubReader s then session_up s else torn_down s) /\
  (showBookDetail s = true -> is_Some (selectedBook s)).
Proof.
  destruct (run_consistent_from ops (initial catalog)) as [Hc Hb].
  - unfold consistent, torn_down. cbn. repeat split; [lia | done].
  - cbv zeta. split; [exact Hb | exact Hc].
Qed.

(** A failed open leaves nothing half-open: when the rendering engine
    rejects the document, [openEpubReader] completes normally with neither
    modal shown and the reader session torn down, and the entry it pushed is
    left in the history, current, without state object and without
    fragment. *)
Theorem openEpubReader_failure_is_clean (book : Book) (s : State) :
  engine (epubUrl book) = false ->
  cursor s < length (entries s) ->
  let s' := exec (openEpubReader engine book) s in
  result (openEpubReader engine book) s = Normal tt /\
  showEpubReader s' = false /\ showBookDetail s' = false /\ torn_down s' /\
  cursor s' = S (cursor s) /\ length (entries s') = S (S (cursor s)) /\
  history_state s' = None /\ location_hash s' = "".
Proof.
  intros Hfail Hcur. cbv zeta. unfold exec, result.
  rewrite openEpubReader_exec, Hfail by done. cbn [fst snd].
  unfold torn_down, history_state, location_hash. cbn.
  rewrite length_app, length_take, Nat.min_l by lia. cbn.
  rewrite lookup_app_r by (rewrite length_take; lia).
  rewrite length_take, Nat.min_l, Nat.sub_diag by lia. cbn.
  repeat split; lia.
Qed.

End NavigationInvFacts.
Section NavigationOffered.
Context `{JSRuntime}.
Variable engine : string -> bool.
Import Navigation NavigationInv.

Lemma findByName_catalog (b : Book) (s : State) :
  b ∈ books s -> is_Some (findByName (name b) s).
Proof.
  intros Hin. unfold findByName. eapply find_is_Some; [exact Hin|].
  by apply bool_decide_eq_true.
Qed.

Lemma findByName_found (bookName : string) (b : Book) (s : State) :
  findByName bookName s = Some b -> b ∈ books s /\ name b = bookName.
Proof.
  unfold findByName. intros [Hin Hp]%find_Some_inv.
  by apply bool_decide_eq_true in Hp.
Qed.

(** Where the entries of a later state may come from: the earlier state, an
    erased entry, or an entry tagged with the name of a catalog book. *)
Lemma offered_intro (s s' : State) :
  books s' = books s ->
  at_most_one_open s' = true ->
  (forall b, selectedBook s' = Some b -> b ∈ books s) ->
  (forall e, e ∈ entries s' ->
     e ∈ entries s \/ state e = None \/
     exists b, b ∈ books s /\
               (state e = Some (BookDetail (name b)) \/
                state e = Some (EpubReader (name b)))) ->
  tags_resolve s -> offered s'.
Proof.
  intros Hbooks Hone Hsel Hfrom Htags. split; [done|]. split.
  - intros b Hb. rewrite Hbooks. by apply Hsel.
  - intros e n He Hst.
    assert (forall m, findByName m s' = findByName m s) as Hfind
      by (intros m; unfold findByName; by rewrite Hbooks).
    rewrite Hfind.
    destruct (Hfrom e He) as [Hold | [Hnone | (b & Hb & Hb')]].
    + by apply (Htags e).
    + rewrite Hnone in Hst. by destruct Hst.
    + assert (n = name b) as -> by (destruct Hst, Hb'; congruence).
      by apply findByName_catalog.
Qed.

Lemma entries_erased (c : bool) (i : nat) (es : list Entry) (e : Entry) :
  e ∈ (if c then <[i := {| state := None; hash := "" |}]> es else es) ->
  e ∈ es \/ state e = None.
Proof.
  destruct c; [|by left].
  intros [-> | ?]%elem_of_insert_inv; [by right | by left].
Qed.

Ltac offered_goals :=
  try done;
  try (unfold at_most_one_open; cbn; rewrite ?andb_false_r; done);
  try (intros ? [= <-]; done);
  try (intros ? [?|?]%entries_erased; by auto).

Lemma offered_closeEpubReader (skip : bool) (s : State) :
  offered s -> offered (exec (closeEpubReader skip) s).
Proof.
  intros (Hone & Hsel & Htags). unfold exec. rewrite closeEpubReader_exec.
  apply (offered_intro s); cbn; offered_goals.
Qed.

Lemma offered_openEpubReader (book : Book) (s : State) :
  cursor s < length (entries s) ->
  book ∈ books s ->
  offered s -> offered (exec (openEpubReader engine book) s).
Proof.
  intros Hcur Hbook (Hone & Hsel & Htags). unfold exec.
  rewrite openEpubReader_exec by done.
  apply (offered_intro s); destruct (engine (epubUrl book)); cbn; offered_goals.
  - intros e [?%elem_of_take_inv | ->%list_elem_of_singleton]%elem_of_app;
      [by left|]. right. right. exists book. cbn. auto.
  - intros e [?%elem_of_take_inv | ->%list_elem_of_singleton]%elem_of_app;
      [by left|]. right. by left.
Qed.

Lemma offered_handlePopState (event_state : option Tag) (s : State) :
  cursor s < length (entries s) ->
  offered s -> offered (exec (handlePopState engine event_state) s).
Proof.
  intros Hcur Hs. pose proof Hs as (Hone & Hsel & Htags).
  rewrite handlePopState_exec. destruct event_state as [[bookName|bookName]|].
  - cbv zeta. destruct (findByName bookName s) as [b|] eqn:Efind.
    + apply findByName_found in Efind as [Hb _].
      destruct (showEpubReader s) eqn:E.
      * unfold exec. rewrite closeEpubReader_exec.
        apply (offered_intro s); cbn; offered_goals.
      * apply (offered_intro s); cbn; offered_goals.
        -- unfold at_most_one_open. cbn. by rewrite E.
        -- auto.
    + destruct (showEpubReader s); [by apply offered_closeEpubReader | done].
  - destruct (findByName bookName s) as [b|] eqn:Efind; [|done].
    apply findByName_found in Efind as [Hb _].
    destruct (showEpubReader s); [done|]. by apply offered_openEpubReader.
  - cbv zeta. destruct (showEpubReader s) eqn:E.
    + unfold exec. rewrite closeEpubReader_exec. cbn [snd].
      destruct (showBookDetail s) eqn:Ed.
      * apply (offered_intro s); cbn; offered_goals.
      * apply (offered_intro s); cbn; offered_goals.
    + destruct (showBookDetail s) eqn:Ed; [|done].
      apply (offered_intro s); cbn; offered_goals. auto.
Qed.

Lemma step_offered (op : Op) (s : State) :
  cursor s < length (entries s) ->
  offered s -> enabled op s -> offered (exec (step engine op) s).
Proof.
  intros Hcur Hs Hen. pose proof Hs as (Hone & Hsel & Htags).
  destruct op as [b|b| | | |]; unfold step; cbn in Hen.
  - destruct Hen as (Hb & Hd & Hr). unfold exec. rewrite showBookDetails_exec.
    apply (offered_intro s); cbn; offered_goals.
    + unfold at_most_one_open. cbn. by rewrite Hr.
    + intros e [?%elem_of_take_inv | ->%list_elem_of_singleton]%elem_of_app;
        [by left|]. right. right. exists b. cbn. auto.
  - destruct Hen as (Hd & Hb & Hr). apply offered_openEpubReader; auto.
  - unfold exec. rewrite closeBookDetail_exec.
    apply (offered_intro s); cbn; offered_goals.
  - by apply offered_closeEpubReader.
  - rewrite back_exec. destruct (cursor s) as [|c] eqn:Ec; [done|].
    apply offered_handlePopState; [cbn; lia | done].
  - rewrite forward_exec. case_decide; [|done].
    by apply offered_handlePopState.
Qed.

(** As long as every operation is performed only while the page offers it,
    at most one of the two modals is shown, and every tagged history entry
    names a book that the popstate listener finds in the catalog, so its
    lookup by name never comes back empty. *)
Theorem admissible_run_offered (ops : list Op) (catalog : list Book) :
  admissible engine ops (initial catalog) ->
  let s := run engine ops (initial catalog) in
  at_most_one_open s = true /\
  (forall b, selectedBook s = Some b -> b ∈ catalog) /\
  (forall e bookName,
     e ∈ entries s ->
     state e = Some (BookDetail bookName) \/ state e = Some (EpubReader bookName) ->
     exists b, findByName bookName s = Some b /\ b ∈ catalog /\ name b = bookName).
Proof.
  intros Hadm.
  assert (forall s0, consistent s0 -> offered s0 -> admissible engine ops s0 ->
            offered (run engine ops s0)) as Hrun.
  { clear Hadm. induction ops as [|op rest IH]; intros s0 Hc Ho Ha; [done|].
    destruct Ha as [Hen Ha]. rewrite run_cons. apply IH; [| |done].
    - by apply step_consistent.
    - apply step_offered; [apply Hc | done | done]. }
  assert (consistent (initial catalog)) as Hc0.
  { unfold consistent, torn_down. cbn. repeat split; [lia | done]. }
  assert (offered (initial catalog)) as Ho0.
  { split; [done|]. split; [done|].
    intros e n ->%list_elem_of_singleton Hst. by destruct Hst. }
  destruct (Hrun _ Hc0 Ho0 Hadm) as (Hone & Hsel & Htags).
  destruct (run_consistent_from engine ops (initial catalog) Hc0) as [_ Hbooks].
  cbv zeta. split; [done|]. split.
  - intros b Hb. apply Hsel in Hb. by rewrite Hbooks in Hb.
  - intros e n He Hst. destruct (Htags e n He Hst) as [b Hb]. exists b.
    split; [done|]. apply findByName_found in Hb as [Hin Hname].
    by rewrite Hbooks in Hin.
Qed.

(** Browser back closes the detail view and forward re-opens it.  From a
    state with nothing shown and an untagged current entry, selecting a book
    that is the first of its name in the catalog and going back shows
    nothing; going forward again gives exactly the state that selecting the
    book gave. *)
Theorem select_back_forward (book : Book) (s : State) :
  cursor s < length (entries s) ->
  showBookDetail s = false -> showEpubReader s = false ->
  history_state s = None ->
  findByName (name book) s = Some book ->
  let s1 := exec (showBookDetails book) s in
  let s2 := exec (back engine) s1 in
  let s3 := exec (forward engine) s2 in
  showBookDetail s2 = false /\ showEpubReader s2 = false /\
  selectedBook s2 = None /\ cursor s2 = cursor s /\ s3 = s1.
Proof.
  intros Hcur Hd Hr Htag Hfind. cbv zeta.
  assert (length (take (S (cursor s)) (entries s)) = S (cursor s)) as Htake
    by (rewrite length_take; lia).
  replace (exec (showBookDetails book) s) with (showBookDetails book s).2 by done.
  rewrite showBookDetails_exec. cbn [snd].
  rewrite back_exec. cbn [cursor].
  match goal with
  | |- context [history_state ?x] => assert (history_state x = None) as ->
  end.
  { unfold history_state in *. cbn.
    rewrite lookup_app_l by lia. rewrite lookup_take_lt by lia. exact Htag. }
  rewrite handlePopState_exec. cbn. rewrite Hr. cbn.
  split; [done|]. split; [done|]. split; [done|]. split; [done|].
  rewrite forward_exec. cbn. rewrite length_app, Htake. cbn.
  rewrite decide_True by lia.
  match goal with
  | |- context [history_state ?x] =>
    assert (history_state x = Some (BookDetail (name book))) as ->
  end.
  { unfold history_state. cbn. rewrite lookup_app_r by lia.
    by rewrite Htake, Nat.sub_diag. }
  rewrite handlePopState_exec. cbn.
  unfold findByName in *. cbn. rewrite Hfind. done.
Qed.

(** While the key listener is registered there is a rendition, so the
    listener's guard lets every key through: Escape closes the reader and
    tears the session down, the arrow keys turn the page and change nothing
    else, every other key is left to the browser; the two buttons turn the
    page. *)
Theorem reader_keys (ops : list Op) (catalog : list Book) (key : string) :
  let s := run engine ops (initial catalog) in
  keydown s = true ->
  (key = "Escape" ->
     result (Reader.handleEpubNavigation key) s
     = Normal {| Reader.defaultPrevented := true; Reader.turn := None |} /\
     showEpubReader (exec (Reader.handleEpubNavigation key) s) = false /\
     torn_down (exec (Reader.handleEpubNavigation key) s)) /\
  (key = "ArrowLeft" ->
     Reader.handleEpubNavigation key s
     = (Normal {| Reader.defaultPrevented := true; Reader.turn := Some Reader.Prev |}, s)) /\
  (key = "ArrowRight" ->
     Reader.handleEpubNavigation key s
     = (Normal {| Reader.defaultPrevented := true; Reader.turn := Some Reader.Next |}, s)) /\
  (key <> "Escape" -> key <> "ArrowLeft" -> key <> "ArrowRight" ->
     Reader.handleEpubNavigation key s
     = (Normal {| Reader.defaultPrevented := false; Reader.turn := None |}, s)) /\
  Reader.goToPrevPage s = (Normal (Some Reader.Prev), s) /\
  Reader.goToNextPage s = (Normal (Some Reader.Next), s).
Proof.
  intros s Hkey.
  assert (consistent s) as (Hcur & Hreader & _).
  { apply run_consistent_from. unfold consistent, torn_down. cbn.
    repeat split; [lia | done]. }
  assert (exists u, rendition s = Some u) as [u Hu].
  { destruct (showEpubReader s).
    - destruct Hreader as (b & _ & _ & Hr & _). eauto.
    - destruct Hreader as (_ & _ & _ & Hk). congruence. }
  assert (Reader.handleEpubNavigation key s =
          if decide (key = "ArrowLeft")
          then (Normal {| Reader.defaultPrevented := true;
                          Reader.turn := Some Reader.Prev |}, s)
          else if decide (key = "ArrowRight")
          then (Normal {| Reader.defaultPrevented := true;
                          Reader.turn := Some Reader.Next |}, s)
          else if decide (key = "Escape")
          then (Normal {| Reader.defaultPrevented := true; Reader.turn := None |},
                exec (closeEpubReader false) s)
          else (Normal {| Reader.defaultPrevented := false; Reader.turn := None |}, s))
    as Hrun.
  { unfold Reader.handleEpubNavigation, bind at 1, gets. cbv beta. rewrite Hu.
    repeat case_decide; try reflexivity.
    unfold bind, exec. by rewrite closeEpubReader_exec. }
  unfold result, exec at 1 2. rewrite Hrun. split; [|split; [|split; [|split]]].
  - intros ->. rewrite !decide_False, decide_True by done. cbn [fst snd].
    unfold exec. rewrite closeEpubReader_exec. done.
  - intros ->. by rewrite decide_True.
  - intros ->. by rewrite decide_False, decide_True.
  - intros ? ? ?. by rewrite !decide_False.
  - unfold Reader.goToPrevPage, Reader.goToNextPage, bind, gets, ret. cbv beta.
    by rewrite Hu.
Qed.

End NavigationOffered.

Section NavigationHistory.
Context `{JSRuntime}.
Variable engine : string -> bool.
Import Navigation.

(** The URL fragment follows the modal.  With the cursor inside the
    history: selecting a book makes [#book-<name>] the fragment of a new
    last entry, a successful open does the same with [#reading-<name>], and
    closing either modal leaves the number of entries and the cursor as they
    are and the current entry without fragment and without state object
    (unless it had no fragment to begin with, when nothing is written). *)
Theorem fragment_follows_modal (book : Book) (s : State) :
  cursor s < length (entries s) ->
  (let s' := exec (showBookDetails book) s in
   location_hash s' = "#book-" +:+ encodeURIComponent (name book) /\
   history_state s' = Some (BookDetail (name book)) /\
   cursor s' = S (cursor s) /\ length (entries s') = S (cursor s')) /\
  (engine (epubUrl book) = true ->
   let s' := exec (openEpubReader engine book) s in
   location_hash s' = "#reading-" +:+ encodeURIComponent (name book) /\
   history_state s' = Some (EpubReader (name book)) /\
   cursor s' = S (cursor s) /\ length (entries s') = S (cursor s')) /\
  (forall close, close = closeBookDetail \/ close = closeEpubReader false ->
   let s' := exec close s in
   location_hash s' = "" /\
   (location_hash s <> "" -> history_state s' = None) /\
   cursor s' = cursor s /\ length (entries s') = length (entries s)).
Proof.
  intros Hcur.
  assert (length (take (S (cursor s)) (entries s)) = S (cursor s)) as Htake
    by (rewrite length_take; lia).
  split; [|split].
  - cbv zeta. unfold exec. rewrite showBookDetails_exec.
    unfold location_hash, history_state. cbn.
    rewrite lookup_app_r, Htake, Nat.sub_diag, length_app, Htake by lia. cbn.
    repeat split; lia.
  - intros Hok. cbv zeta. unfold exec. rewrite openEpubReader_exec, Hok by done.
    unfold location_hash, history_state. cbn.
    rewrite lookup_app_r, Htake, Nat.sub_diag, length_app, Htake by lia. cbn.
    repeat split; lia.
  - intros close Hclose. cbv zeta.
    assert (entries (exec close s)
            = (if truthy (location_hash s)
               then <[cursor s := {| state := None; hash := "" |}]> (entries s)
               else entries s) /\ cursor (exec close s) = cursor s) as [He Hc].
    { destruct Hclose as [-> | ->]; unfold exec;
        by rewrite ?closeBookDetail_exec, ?closeEpubReader_exec. }
    unfold location_hash at 1, history_state. rewrite He, Hc.
    destruct (truthy (location_hash s)) eqn:Et.
    + rewrite list_lookup_insert_eq, length_insert by done. done.
    + apply truthy_false in Et. unfold location_hash in Et. rewrite Et. done.
Qed.

(** What a popstate event does to the history.  Arriving at a detail entry
    or at an untagged entry never adds an entry and never moves the cursor.
    Arriving at a reader entry while the reader is closed re-opens the reader
    through [openEpubReader]: the entries after the current one are dropped
    and one entry is added, which becomes current. *)
Theorem popstate_history_accounting (bookName : string) (s : State) :
  (forall event_state,
     event_state = None \/ event_state = Some (BookDetail bookName) ->
     let s' := exec (handlePopState engine event_state) s in
     length (entries s') = length (entries s) /\ cursor s' = cursor s) /\
  (forall b,
     cursor s < length (entries s) ->
     findByName bookName s = Some b -> showEpubReader s = false ->
     let s' := exec (handlePopState engine (Some (EpubReader bookName))) s in
     cursor s' = S (cursor s) /\ length (entries s') = S (S (cursor s))).
Proof.
  split.
  - intros event_state Hev. cbv zeta. rewrite handlePopState_exec.
    assert (forall s0, length (entries (exec (closeEpubReader true) s0))
                       = length (entries s0) /\
                       cursor (exec (closeEpubReader true) s0) = cursor s0) as Hclose.
    { intros s0. unfold exec. rewrite closeEpubReader_exec. cbn.
      by destruct (truthy _); rewrite ?length_insert. }
    destruct Hev as [-> | ->]; cbv zeta.
    + destruct (showEpubReader s), (showBookDetail s); cbn; try done; apply Hclose.
    + destruct (findByName bookName s), (showEpubReader s); try done;
        by rewrite (proj1 (Hclose _)), (proj2 (Hclose _)).
  - intros b Hcur Hfind Hclosed. cbv zeta.
    rewrite handlePopState_exec, Hfind, Hclosed. unfold exec.
    rewrite openEpubReader_exec by done.
    destruct (engine (epubUrl b)); cbn;
      rewrite length_app, length_take, Nat.min_l by lia; cbn; lia.
Qed.

End NavigationHistory.

Section CatalogLoad.
Context `{JSRuntime}.
Import Catalog.

Lemma keep_true (b : Book) :
  keep b = true <->
  size_in_bytes b = None \/ size_in_bytes b = Some 0%Z \/
  exists n, size_in_bytes b = Some n /\ (1407 < n)%Z.
Proof.
  unfold keep. destruct (size_in_bytes b) as [n|]; [|by split; [left|]].
  rewrite orb_true_iff, Z.eqb_eq, Z.ltb_lt. split.
  - intros [-> | Hn]; [by right; left | right; right; by exists n].
  - intros [? | [[= ->] | (m & [= ->] & Hm)]]; [done | by left | by right].
Qed.

(** The catalog loader, whatever the server does: the hook never throws,
    issues exactly one request, for [summary.json], and clears the loading
    flag.  When the response carries a [book] array, the catalog is a
    subsequence of it, holding exactly the entries whose size is absent, 0,
    or greater than 1407, and the error flag is not touched.  When the
    request is rejected or the array is missing, the error flag is set and
    the catalog is left as it was. *)
Theorem onMounted_catalog (server : AxiosOutcome) (s : State) :
  let s' := exec (onMounted server) s in
  result (onMounted server) s = Normal tt /\
  requests s' = requests s ++ [baseUrl +:+ "/summary.json"] /\
  loading s' = false /\
  match server with
  | Resolved (Some arr) =>
    sublist (books s') arr /\
    (forall b, b ∈ books s' <->
               b ∈ arr /\ (size_in_bytes b = None \/ size_in_bytes b = Some 0%Z \/
                           exists n, size_in_bytes b = Some n /\ (1407 < n)%Z)) /\
    error s' = error s
  | _ => books s' = books s /\ error s' = Some "Failed to load books."
  end.
Proof.
  destruct server as [|[arr|]]; cbv zeta; try by repeat split.
  split; [reflexivity|]. split; [reflexivity|]. split; [reflexivity|].
  split; [apply filter_sublist|]. split; [|reflexivity].
  intros b. change (books (exec (onMounted (Resolved (Some arr))) s))
    with (List.filter keep arr).
  rewrite elem_of_filter_bool, keep_true. done.
Qed.

End CatalogLoad.

Lemma openEpubReader_failure_is_clean_witness :
  let s' := exec (Navigation.openEpubReader engine_down bookX)
              (Navigation.initial [bookX; bookY]) in
  Navigation.showEpubReader s' = false /\ Navigation.history_state s' = None.
Proof.
  intros s'.
  destruct (openEpubReader_failure_is_clean engine_down bookX
              (Navigation.initial [bookX; bookY]))
    as (_ & Hclosed & _ & _ & _ & _ & Htag & _).
  - reflexivity.
  - cbn. lia.
  - exact (conj Hclosed Htag).
Defined.

Lemma admissible_run_offered_witness :
  Navigation.at_most_one_open
    (Navigation.run engine_ok
       [Navigation.SelectBook bookX; Navigation.OpenReader bookX;
        Navigation.Back; Navigation.Forward]
       (Navigation.initial [bookX; bookY])) = true.
Proof.
  apply (admissible_run_offered engine_ok
           [Navigation.SelectBook bookX; Navigation.OpenReader bookX;
            Navigation.Back; Navigation.Forward] [bookX; bookY]).
  cbn. repeat split. left.
Defined.

Lemma select_back_forward_witness :
  let s := Navigation.initial [bookX; bookY] in
  let s1 := exec (Navigation.showBookDetails bookX) s in
  exec (Navigation.forward engine_ok) (exec (Navigation.back engine_ok) s1) = s1.
Proof.
  intros s s1.
  destruct (select_back_forward engine_ok bookX s) as (_ & _ & _ & _ & Hsame).
  - cbn. lia.
  - reflexivity.
  - reflexivity.
  - reflexivity.
  - reflexivity.
  - exact Hsame.
Defined.

Lemma reader_keys_witness :
  let s := Navigation.run engine_ok
             [Navigation.SelectBook bookX; Navigation.OpenReader bookX]
             (Navigation.initial [bookX; bookY]) in
  Navigation.showEpubReader (exec (Reader.handleEpubNavigation "Escape") s) = false.
Proof.
  intros s.
  destruct (reader_keys engine_ok
              [Navigation.SelectBook bookX; Navigation.OpenReader bookX]
              [bookX; bookY] "Escape") as (Hesc & _).
  - reflexivity.
  - destruct (Hesc eq_refl) as (_ & Hclosed & _). exact Hclosed.
Defined.

Lemma fragment_follows_modal_witness :
  Navigation.location_hash
    (exec (Navigation.showBookDetails bookX) (Navigation.initial [bookX; bookY]))
  = "#book-" +:+ encodeURIComponent (name bookX).
Proof.
  destruct (fragment_follows_modal engine_ok bookX (Navigation.initial [bookX; bookY]))
    as ((Hhash & _) & _).
  - cbn. lia.
  - exact Hhash.
Defined.

(** With two books of one name in the catalog, going back and forward from
    the detail view of the second re-opens the detail view of the first. *)
Example forward_reopens_first_of_name :
  let s1 := exec (Navigation.showBookDetails bookX2)
              (Navigation.initial [bookX; bookX2]) in
  let s3 := exec (Navigation.forward engine_ok) (exec (Navigation.back engine_ok) s1) in
  Navigation.selectedBook s1 = Some bookX2 /\ Navigation.selectedBook s3 = Some bookX.
Proof. vm_compute. split; reflexivity. Qed.

(** ** The older variants, the toggle and the first download *)

Section OlderVariants.
Context `{JSRuntime}.

(** The filter of the full component extends the two older filters: with no
    search text and the favorites filter off it returns what the variant with
    author and category returns, and with no category either, what the
    variant with the author alone returns. *)
Theorem filteredBooks_extends_older_variants (books : list Book)
  (favorites : list string) (a c : string) :
  Filter.filteredBooks books favorites
    {| Filter.searchQuery := ""; Filter.selectedAuthor := a;
       Filter.selectedCategory := c; Filter.showFavoritesOnly := false |}
  = AuthorCategory.filteredBooks books a c /\
  AuthorCategory.filteredBooks books a "" = AuthorOnly.filteredBooks books a.
Proof.
  split.
  - unfold Filter.filteredBooks, AuthorCategory.filteredBooks. cbn.
    by rewrite trim_empty.
  - unfold AuthorCategory.filteredBooks, AuthorOnly.filteredBooks. cbn.
    by destruct (truthy a).
Qed.

End OlderVariants.

Section ToggleFrame.
Context `{JSRuntime}.
Import Favorites.

(** A toggle concerns one key and one storage item: it never throws, the
    favorite status of every book with another key is as before, and every
    other item of durable storage (the image flags among them) is as
    before. *)
Theorem toggleFavorite_frame (book : Book) (s : State) :
  let s1 := exec (toggleFavorite book) s in
  result (toggleFavorite book) s = Normal tt /\
  (forall b, getFavoriteKey b <> getFavoriteKey book ->
             isFavorite s1 b = isFavorite s b) /\
  (forall k, k <> "epub-favorites" ->
             getItem (localStorage s1) k = getItem (localStorage s) k).
Proof.
  cbv zeta. unfold exec, result. rewrite toggleFavorite_run. cbn [fst snd].
  split; [done|]. split.
  - intros b Hb. unfold isFavorite, arr_includes. cbn [favorites].
    apply bool_decide_ext. by apply toggled_other.
  - intros k Hk. cbn [localStorage].
    destruct (setItem (localStorage s) "epub-favorites" _) as [st|] eqn:E; [|done].
    unfold getItem. rewrite (setItem_items _ _ _ _ E). by rewrite lookup_insert_ne.
Qed.

End ToggleFrame.

Section FirstDownload.
Context `{JSRuntime}.
Variable net : nat -> string -> ImageCache.FetchOutcome.
Import ImageCache.

(** The first download of an image.  For a key with no handle and no flag
    whose fetch succeeds, one request is made and a fresh handle is stored.
    If the flag can be written, the call returns the handle, and afterwards
    [isImageCached] answers true and [getCachedImageUrl] returns the same
    handle.  If writing the flag throws, the handle is stored all the same
    but the call returns the direct URL and durable storage is as before. *)
Theorem cacheImage_first_download (author filename : string) (s : State) :
  cachedImageUrls s !! getCacheKey author filename = None ->
  getItem (localStorage s) (flagKey (getCacheKey author filename)) <> Some "true" ->
  succeeded (net (length (requests s)) (imgUrl author filename)) = true ->
  let s' := exec (cacheImage net author filename) s in
  let handle := "blob:" +:+ pretty (blobs s) in
  requests s' = requests s ++ [imgUrl author filename] /\
  result (getCachedImageUrl author filename) s' = Normal (Some handle) /\
  match setItem (localStorage s) (flagKey (getCacheKey author filename)) "true" with
  | Some st =>
    result (cacheImage net author filename) s = Normal (Some handle) /\
    localStorage s' = st /\
    result (isImageCached author filename) s' = Normal true
  | None =>
    result (cacheImage net author filename) s = Normal (Some (imgUrl author filename)) /\
    localStorage s' = localStorage s
  end.
Proof.
  intros Hmiss Hflag Hok. cbv zeta. revert Hok.
  unfold cacheImage, isImageCached, markImageAsCached, getCachedImageUrl, fetch,
    createObjectURL, localStorage_setItem, try_catch, bind, gets, modify, ret,
    throw, exec, result, log_request, next_blob, set_cachedImageUrls,
    set_localStorage. cbn.
  rewrite bool_decide_eq_false_2 by (rewrite Hmiss; by intros [? ?]).
  rewrite bool_decide_eq_false_2 by done. cbn.
  destruct (net (length (requests s)) (imgUrl author filename)) as [|[] body];
    cbn; try done. intros _.
  destruct (setItem (localStorage s) (flagKey (getCacheKey author filename)) "true")
    as [st|] eqn:E; cbn; rewrite lookup_insert_eq; repeat split.
  apply setItem_getItem in E. by rewrite bool_decide_eq_true_2.
Qed.

End FirstDownload.

Lemma cacheImage_first_download_witness :
  ImageCache.requests (exec (ImageCache.cacheImage online "A" "X") fresh_cache)
  = ImageCache.requests fresh_cache ++ [ImageCache.imgUrl "A" "X"].
Proof.
  destruct (cacheImage_first_download online "A" "X" fresh_cache) as (Hreq & _).
  - reflexivity.
  - discriminate.
  - reflexivity.
  - exact Hreq.
Defined.

(** ** The variant with the detail view alone *)

Section DetailOnlyFacts.
Context `{JSRuntime}.
Import Navigation DetailOnly.

Lemma detail_handlePopState_exec (event_state : option Tag) (s : State) :
  exec (DetailOnly.handlePopState event_state) s =
  match event_state with
  | Some (BookDetail bookName) =>
    match findByName bookName s with
    | Some b => set_showBookDetail true (set_selectedBook (Some b) s)
    | None => s
    end
  | _ => set_selectedBook None (set_showBookDetail false s)
  end.
Proof.
  destruct event_state as [[bookName|bookName]|]; try reflexivity.
  unfold DetailOnly.handlePopState, exec, bind, gets. cbv beta.
  by destruct (findByName bookName s).
Qed.

Lemma detail_back_exec (s : State) :
  exec DetailOnly.back s =
  match cursor s with
  | 0 => s
  | S c =>
    exec (DetailOnly.handlePopState (history_state (set_history (entries s) c s)))
      (set_history (entries s) c s)
  end.
Proof. unfold DetailOnly.back, bind, gets, exec. cbn. by destruct (cursor s). Qed.

Lemma detail_forward_exec (s : State) :
  exec DetailOnly.forward s =
  if decide (S (cursor s) < length (entries s))
  then exec (DetailOnly.handlePopState
               (history_state (set_history (entries s) (S (cursor s)) s)))
         (set_history (entries s) (S (cursor s)) s)
  else s.
Proof. unfold DetailOnly.forward, bind, gets, exec. cbn. by case_decide. Qed.

Lemma detail_closeBookDetail_exec (s : State) :
  exec DetailOnly.closeBookDetail s =
  let s1 := set_selectedBook None (set_showBookDetail false s) in
  if startsWith (location_hash s) "#book-" then exec DetailOnly.back s1 else s1.
Proof.
  unfold DetailOnly.closeBookDetail, bind, gets, modify, exec, ret. cbn.
  unfold location_hash. cbn. by destruct (startsWith _ _).
Qed.

Lemma detail_showBookDetails_exec (book : Book) (s : State) :
  DetailOnly.showBookDetails book s = Navigation.showBookDetails book s.
Proof. reflexivity. Qed.

Lemma startsWith_book (x : string) : startsWith ("#book-" +:+ x) "#book-" = true.
Proof. by destruct x. Qed.

(** Arriving at an entry, the listener makes the detail view agree with its
    tag, whatever was shown before. *)
Lemma detail_arrive (s : State) (c : nat) :
  showEpubReader s = false ->
  (forall e, e ∈ entries s -> entry_ok s e) ->
  (exists e0, entries s !! 0 = Some e0 /\ state e0 = None) ->
  c < length (entries s) ->
  inv (exec (DetailOnly.handlePopState (history_state (set_history (entries s) c s)))
         (set_history (entries s) c s)).
Proof.
  intros Hr Hent Hzero Hc.
  rewrite detail_handlePopState_exec.
  destruct (lookup_lt_is_Some_2 (entries s) c Hc) as [e He].
  assert (history_state (set_history (entries s) c s) = state e) as ->
    by (unfold history_state; cbn; by rewrite He).
  pose proof (Hent e (list_elem_of_lookup_2 _ _ _ He)) as Hok. unfold entry_ok in Hok.
  destruct (state e) as [[bookName|bookName]|] eqn:Est; [| done |].
  - destruct Hok as [_ [b Hb]].
    assert (findByName bookName (set_history (entries s) c s) = Some b) as -> by done.
    split; [done|]. split; [done|]. split; [|split; [exact Hent | exact Hzero]].
    unfold matches_tag, history_state. cbn. rewrite He, Est, Hr. cbn.
    apply findByName_found in Hb as [_ Hb]. apply bool_decide_eq_true.
    by rewrite Hb.
  - split; [done|]. split; [done|]. split; [|split; [exact Hent | exact Hzero]].
    unfold matches_tag, history_state. cbn. by rewrite He, Est, Hr.
Qed.

Lemma detail_step_inv (op : DetailOnly.Op) (s : State) :
  (forall b, op = DetailOnly.SelectBook b -> b ∈ books s) ->
  inv s -> inv (exec (DetailOnly.step op) s).
Proof.
  intros Hsel Hs. pose proof Hs as (Hr & Hcur & Hm & Hent & e0 & Hzero & Hzero').
  destruct op as [b| | |]; unfold DetailOnly.step.
  - specialize (Hsel b eq_refl).
    assert (length (take (S (cursor s)) (entries s)) = S (cursor s)) as Htake
      by (rewrite length_take; lia).
    unfold exec. rewrite detail_showBookDetails_exec, showBookDetails_exec.
    cbn [snd]. split; [done|]. split; [cbn; rewrite length_app, Htake; cbn; lia|].
    split; [|split].
    + unfold matches_tag, history_state. cbn.
      rewrite lookup_app_r, Htake, Nat.sub_diag by lia. cbn. rewrite Hr. cbn.
      by apply bool_decide_eq_true.
    + intros e [He%elem_of_take_inv | ->%list_elem_of_singleton]%elem_of_app.
      * apply (Hent e He).
      * split; [apply startsWith_book|].
        eapply find_is_Some; [exact Hsel | by apply bool_decide_eq_true].
    + exists e0. split; [|done]. cbn. rewrite lookup_app_l by lia.
      rewrite lookup_take_lt by lia. done.
  - rewrite detail_closeBookDetail_exec. cbv zeta.
    destruct (lookup_lt_is_Some_2 (entries s) (cursor s) Hcur) as [e He].
    pose proof (Hent e (list_elem_of_lookup_2 _ _ _ He)) as Hok. unfold entry_ok in Hok.
    assert (location_hash s = hash e) as Hhash by (unfold location_hash; by rewrite He).
    destruct (startsWith (location_hash s) "#book-") eqn:Esw.
    + rewrite detail_back_exec. cbn [cursor set_selectedBook set_showBookDetail].
      destruct (cursor s) as [|c] eqn:Ec.
      * rewrite Hzero in He. injection He as <-. rewrite Hzero' in Hok.
        rewrite Hhash, Hok in Esw. done.
      * apply (detail_arrive (set_selectedBook None (set_showBookDetail false s)) c);
          [done | exact Hent | by exists e0 | cbn; lia].
    + destruct (state e) as [[bookName|bookName]|] eqn:Est; [| done |].
      * destruct Hok as [Hsw _]. rewrite Hhash in Esw. congruence.
      * split; [done|]. split; [done|]. split; [|split; [exact Hent | by exists e0]].
        unfold matches_tag, history_state. cbn. by rewrite He, Est, Hr.
  - rewrite detail_back_exec. destruct (cursor s) as [|c] eqn:Ec; [done|].
    apply detail_arrive; [done | done | by exists e0 | lia].
  - rewrite detail_forward_exec. case_decide; [|done].
    apply detail_arrive; [done | done | by exists e0 | done].
Qed.

Lemma detail_step_books (op : DetailOnly.Op) (s : State) :
  books (exec (DetailOnly.step op) s) = books s.
Proof.
  assert (forall st s0, books (exec (DetailOnly.handlePopState st) s0) = books s0)
    as Hpop.
  { intros st s0. rewrite detail_handlePopState_exec.
    destruct st as [[n|n]|]; try done. by destruct (findByName n s0). }
  assert (forall s0, books (exec DetailOnly.back s0) = books s0) as Hback.
  { intros s0. rewrite detail_back_exec. destruct (cursor s0); [done|].
    by rewrite Hpop. }
  destruct op as [b| | |]; unfold DetailOnly.step.
  - done.
  - rewrite detail_closeBookDetail_exec. cbv zeta.
    destruct (startsWith _ _); [|done]. by rewrite Hback.
  - apply Hback.
  - rewrite detail_forward_exec. case_decide; [|done]. by rewrite Hpop.
Qed.

(** In the variant with the detail view alone the history invariant holds:
    after any sequence of selecting catalog books, closing the detail view
    and going back and forward, the detail view is shown exactly when the
    current history entry is tagged for it, and then for a book of the name
    in the tag; the cursor stays inside the history. *)
Theorem detail_only_history_invariant (ops : list DetailOnly.Op)
  (catalog : list Book) :
  (forall b, DetailOnly.SelectBook b ∈ ops -> b ∈ catalog) ->
  let s := DetailOnly.run ops (initial catalog) in
  matches_tag s = true /\ cursor s < length (entries s) /\ books s = catalog.
Proof.
  intros Hsel.
  assert (forall s0, inv s0 -> (forall b, DetailOnly.SelectBook b ∈ ops -> b ∈ books s0) ->
            inv (DetailOnly.run ops s0) /\ books (DetailOnly.run ops s0) = books s0)
    as Hrun.
  { clear Hsel. induction ops as [|op rest IH]; intros s0 Hinv Hsel; [done|].
    change (DetailOnly.run (op :: rest) s0)
      with (DetailOnly.run rest (exec (DetailOnly.step op) s0)).
    destruct (IH (exec (DetailOnly.step op) s0)) as [Hinv' Hbooks'].
    - apply detail_step_inv; [|done]. intros b ->. apply Hsel. left.
    - intros b Hb. rewrite detail_step_books. apply Hsel. by right.
    - split; [done|]. by rewrite Hbooks', detail_step_books. }
  destruct (Hrun (initial catalog)) as [(_ & Hcur & Hm & _) Hbooks].
  - split; [done|]. split; [cbn; lia|]. split; [done|]. split.
    + intros e ->%list_elem_of_singleton. done.
    + by eexists.
  - exact Hsel.
  - done.
Qed.

End DetailOnlyFacts.

Lemma detail_only_history_invariant_witness :
  Navigation.matches_tag
    (DetailOnly.run
       [DetailOnly.SelectBook bookX; DetailOnly.CloseDetail;
        DetailOnly.Forward; DetailOnly.Back]
       (Navigation.initial [bookX; bookY])) = true.
Proof.
  apply (detail_only_history_invariant
           [DetailOnly.SelectBook bookX; DetailOnly.CloseDetail;
            DetailOnly.Forward; DetailOnly.Back] [bookX; bookY]).
  intros b Hb.
  repeat (apply elem_of_cons in Hb as [Hb | Hb]); try discriminate.
  - injection Hb as ->. left.
  - by apply elem_of_nil in Hb.
Defined.

(** Closing the detail view in this variant goes back to the entry before
    the detail entry, which stays in the history for the forward button. *)
Example detail_only_close_goes_back :
  let s := DetailOnly.run [DetailOnly.SelectBook bookX; DetailOnly.CloseDetail]
             (Navigation.initial [bookX; bookY]) in
  Navigation.cursor s = 0 /\ length (Navigation.entries s) = 2 /\
  Navigation.showBookDetail s = false.
Proof. vm_compute. repeat split. Qed.
